(** * Boids flocking kernels (src/src/kernel.cu): a shallow embedding

    The CUDA source works on [float] and [glm::vec3].  Scalars are modelled
    by the real numbers of the Standard Library: every arithmetic operation
    is the exact one, comparisons are the exact ones, and [glm::length] is
    the real square root of the dot product.  Rounding, NaN and infinities
    are therefore outside this model.  [int] values are integers [Z] with
    the 32-bit two's-complement wrap-around written out where the source
    computes with them; loop counters and thread indices, which the source
    keeps in [0, N), are natural numbers.  Device buffers are lists. *)

From Stdlib Require Import ZArith List Reals Lra Lia Zfloor Permutation Sorted.
From stdpp Require Import base list gmap.

Local Open Scope R_scope.

(** ** Configuration (the [#define]s of kernel.cu) *)

Definition blockSize : nat := 128.

Definition rule1Distance : R := 5.
Definition rule2Distance : R := 3.
Definition rule3Distance : R := 5.

Definition rule1Scale : R := 1 / 100.
Definition rule2Scale : R := 1 / 10.
Definition rule3Scale : R := 1 / 10.

Definition maxSpeed : R := 1.

Definition scene_scale : R := 100.

(** ** glm::vec3 *)

Record vec3 : Type := Vec3 { vx : R; vy : R; vz : R }.

Definition vzero : vec3 := Vec3 0 0 0.

Definition vadd (a b : vec3) : vec3 :=
  Vec3 (vx a + vx b) (vy a + vy b) (vz a + vz b).

Definition vsub (a b : vec3) : vec3 :=
  Vec3 (vx a - vx b) (vy a - vy b) (vz a - vz b).

Definition vscale (a : vec3) (k : R) : vec3 :=
  Vec3 (vx a * k) (vy a * k) (vz a * k).

Definition vdiv (a : vec3) (k : R) : vec3 :=
  Vec3 (vx a / k) (vy a / k) (vz a / k).

Definition vdot (a b : vec3) : R :=
  vx a * vx b + vy a * vy b + vz a * vz b.

(** [glm::length] *)
Definition vlength (a : vec3) : R := sqrt (vdot a a).

(** ** Kernel launches

    A launch [kern<<<fullBlocksPerGrid, blockSize>>>] with
    [fullBlocksPerGrid = (N + blockSize - 1) / blockSize] starts
    [fullBlocksPerGrid * blockSize] threads.  The threads of one launch are
    run here one after the other in index order. *)

Definition fullBlocksPerGrid (N : nat) : nat :=
  ((N + blockSize - 1) / blockSize)%nat.

Definition launch {S : Type} (N : nat) (thread : nat -> S -> S) (s : S) : S :=
  fold_left (fun acc index => thread index acc)
            (seq 0 (fullBlocksPerGrid N * blockSize)) s.

(** ** kernUpdatePos (kernel.cu 354-373) *)

Definition wrapBelow (c : R) : R :=
  if Rlt_dec c (- scene_scale) then scene_scale else c.

Definition wrapAbove (c : R) : R :=
  if Rgt_dec c scene_scale then - scene_scale else c.

Definition integrate (dt : R) (p v : vec3) : vec3 :=
  let thisPos := vadd p (vscale v dt) in
  let thisPos := Vec3 (wrapBelow (vx thisPos)) (wrapBelow (vy thisPos))
                      (wrapBelow (vz thisPos)) in
  Vec3 (wrapAbove (vx thisPos)) (wrapAbove (vy thisPos))
       (wrapAbove (vz thisPos)).

Definition kernUpdatePos_thread (N : nat) (dt : R) (vel : list vec3)
    (index : nat) (pos : list vec3) : list vec3 :=
  if (N <=? index)%nat then pos
  else <[index := integrate dt (nth index pos vzero) (nth index vel vzero)]> pos.

Definition kernUpdatePos (N : nat) (dt : R) (pos vel : list vec3) : list vec3 :=
  launch N (kernUpdatePos_thread N dt vel) pos.

(** ** Brute-force flocking rules (kernel.cu 251-329) *)

(** One iteration of the loop of [kernUpdateVelocityRule1]; the accumulator
    is the pair [(rule1, count)]. *)
Definition rule1_iter (iSelf : nat) (pos : list vec3)
    (acc : vec3 * Z) (i : nat) : vec3 * Z :=
  if (i =? iSelf)%nat then acc
  else if Rlt_dec (vlength (vsub (nth iSelf pos vzero) (nth i pos vzero)))
                  rule1Distance
       then (vadd (fst acc) (nth i pos vzero), (snd acc + 1)%Z)
       else acc.

Definition kernUpdateVelocityRule1 (N iSelf : nat) (pos : list vec3) : vec3 :=
  let acc := fold_left (rule1_iter iSelf pos) (seq 0 N) (vzero, 0%Z) in
  let rule1 := if (snd acc =? 0)%Z then fst acc
               else vdiv (fst acc) (IZR (snd acc)) in
  vscale (vsub rule1 (nth iSelf pos vzero)) rule1Scale.

Definition rule2_iter (iSelf : nat) (pos : list vec3)
    (rule2 : vec3) (i : nat) : vec3 :=
  if (i =? iSelf)%nat then rule2
  else if Rlt_dec (vlength (vsub (nth iSelf pos vzero) (nth i pos vzero)))
                  rule2Distance
       then vsub rule2 (vsub (nth i pos vzero) (nth iSelf pos vzero))
       else rule2.

Definition kernUpdateVelocityRule2 (N iSelf : nat) (pos : list vec3) : vec3 :=
  vscale (fold_left (rule2_iter iSelf pos) (seq 0 N) vzero) rule2Scale.

(** The counter of rule 3 is incremented but never read in the source (the
    division is commented out); it is left out. *)
Definition rule3_iter (iSelf : nat) (pos vel : list vec3)
    (rule3 : vec3) (i : nat) : vec3 :=
  if (i =? iSelf)%nat then rule3
  else if Rlt_dec (vlength (vsub (nth iSelf pos vzero) (nth i pos vzero)))
                  rule3Distance
       then vadd rule3 (nth i vel vzero)
       else rule3.

Definition kernUpdateVelocityRule3 (N iSelf : nat) (pos vel : list vec3) : vec3 :=
  vscale (fold_left (rule3_iter iSelf pos vel) (seq 0 N) vzero) rule3Scale.

(** "restrict to max velocity": the last statement of [computeVelocityChange]
    and of both grid kernels. *)
Definition restrictSpeed (vel_change : vec3) : vec3 :=
  if Rgt_dec (vlength vel_change) maxSpeed
  then vscale vel_change (maxSpeed / vlength vel_change)
  else vel_change.

(** The sum that [computeVelocityChange] builds before restricting it. *)
Definition combinedVelocity (N iSelf : nat) (pos vel : list vec3) : vec3 :=
  let vel_change := vzero in
  let vel_change := vadd vel_change (kernUpdateVelocityRule1 N iSelf pos) in
  let vel_change := vadd vel_change (kernUpdateVelocityRule2 N iSelf pos) in
  let vel_change := vadd vel_change (kernUpdateVelocityRule3 N iSelf pos vel) in
  vadd vel_change (nth iSelf vel vzero).

Definition computeVelocityChange (N iSelf : nat) (pos vel : list vec3) : vec3 :=
  restrictSpeed (combinedVelocity N iSelf pos vel).

(** ** kernUpdateVelocityBruteForce (kernel.cu 335-348) *)

Definition kernUpdateVelocityBruteForce_thread (N : nat) (pos vel1 : list vec3)
    (index : nat) (vel2 : list vec3) : list vec3 :=
  if (N <=? index)%nat then vel2
  else <[index := computeVelocityChange N index pos vel1]> vel2.

Definition kernUpdateVelocityBruteForce (N : nat) (pos vel1 vel2 : list vec3)
    : list vec3 :=
  launch N (kernUpdateVelocityBruteForce_thread N pos vel1) vel2.

(** ** 32-bit [int] arithmetic and array access through [int] indices *)

Definition wrap32 (z : Z) : Z := ((z + 2 ^ 31) mod 2 ^ 32 - 2 ^ 31)%Z.

Definition INT_MAX : Z := (2 ^ 31 - 1)%Z.

Definition iadd (a b : Z) : Z := wrap32 (a + b).
Definition isub (a b : Z) : Z := wrap32 (a - b).
Definition imul (a b : Z) : Z := wrap32 (a * b).

(** Conversion [float -> int]: truncation toward zero (values that do not fit
    an [int] are undefined in the source; no case here reaches them). *)
Definition float2int (r : R) : Z :=
  if Rle_dec 0 r then Zfloor r else Zceil r.

(** [std::fmod]: the remainder of the truncated quotient. *)
Definition fmod (a b : R) : R := a - b * IZR (float2int (a / b)).

(** Reading [a[i]] and writing [a[i] = v] for an [int] index.  An access
    outside the buffer is undefined in the source: a read gives the default
    and a write is dropped. *)
Definition aread {A : Type} (d : A) (a : list A) (i : Z) : A :=
  if (i <? 0)%Z then d else nth (Z.to_nat i) a d.

Definition awrite {A : Type} (a : list A) (i : Z) (v : A) : list A :=
  if (i <? 0)%Z then a else <[Z.to_nat i := v]> a.

(** ** Uniform grid: indexing (kernel.cu 381-434) *)

Definition gridIndex3Dto1D (x y z gridResolution : Z) : Z :=
  iadd (iadd x (imul y gridResolution))
       (imul (imul z gridResolution) gridResolution).

(** Buffers written by [kernComputeIndices]: [(indices, gridIndices)].  The
    source is compiled with [COHERENT_GRID 1], so the first branch of the
    [#if] is the code. *)
Definition kernComputeIndices_thread (N : nat) (gridResolution : Z)
    (gridMin : vec3) (inverseCellWidth : R) (pos : list vec3)
    (index : nat) (bufs : list Z * list Z) : list Z * list Z :=
  if (index <? N)%nat then
    let indices := <[index := Z.of_nat index]> (fst bufs) in
    let boid_index := index in
    let x := float2int ((vx (nth boid_index pos vzero) - vx gridMin) * inverseCellWidth) in
    let y := float2int ((vy (nth boid_index pos vzero) - vy gridMin) * inverseCellWidth) in
    let z := float2int ((vz (nth boid_index pos vzero) - vz gridMin) * inverseCellWidth) in
    let cell_index := gridIndex3Dto1D x y z gridResolution in
    (indices, <[index := cell_index]> (snd bufs))
  else bufs.

Definition kernComputeIndices (N : nat) (gridResolution : Z) (gridMin : vec3)
    (inverseCellWidth : R) (pos : list vec3) (indices gridIndices : list Z)
    : list Z * list Z :=
  launch N (kernComputeIndices_thread N gridResolution gridMin inverseCellWidth pos)
         (indices, gridIndices).

Definition kernResetIntBuffer_thread (N : nat) (value : Z)
    (index : nat) (intBuffer : list Z) : list Z :=
  if (index <? N)%nat then <[index := value]> intBuffer else intBuffer.

Definition kernResetIntBuffer (N : nat) (intBuffer : list Z) (value : Z) : list Z :=
  launch N (kernResetIntBuffer_thread N value) intBuffer.

Definition kernResetIndexBuffer_thread (N : nat)
    (index : nat) (indexBuffer : list Z) : list Z :=
  if (index <? N)%nat then <[index := Z.of_nat index]> indexBuffer else indexBuffer.

Definition kernResetIndexBuffer (N : nat) (indexBuffer : list Z) : list Z :=
  launch N (kernResetIndexBuffer_thread N) indexBuffer.

(** ** kernIdentifyCellStartEnd (kernel.cu 436-456)

    The state of a thread is the pair
    [(gridCellStartIndices, gridCellEndIndices)]. *)

Definition startsRun (particleGridIndices : list Z) (index : nat) : bool :=
  (index =? 0)%nat
  || negb (nth index particleGridIndices 0 =? nth (index - 1) particleGridIndices 0)%Z.

Definition endsRun (N : nat) (particleGridIndices : list Z) (index : nat) : bool :=
  (index =? N - 1)%nat
  || negb (nth index particleGridIndices 0 =? nth (index + 1) particleGridIndices 0)%Z.

Definition kernIdentifyCellStartEnd_thread (N : nat) (particleGridIndices : list Z)
    (index : nat) (bufs : list Z * list Z) : list Z * list Z :=
  if (index <? N)%nat then
    let gridCellStartIndices :=
      if startsRun particleGridIndices index
      then awrite (fst bufs) (nth index particleGridIndices 0%Z) (Z.of_nat index)
      else fst bufs in
    let gridCellEndIndices :=
      if endsRun N particleGridIndices index
      then awrite (snd bufs) (nth index particleGridIndices 0%Z) (Z.of_nat index + 1)%Z
      else snd bufs in
    (gridCellStartIndices, gridCellEndIndices)
  else bufs.

Definition kernIdentifyCellStartEnd (N : nat) (particleGridIndices : list Z)
    (gridCellStartIndices gridCellEndIndices : list Z) : list Z * list Z :=
  launch N (kernIdentifyCellStartEnd_thread N particleGridIndices)
         (gridCellStartIndices, gridCellEndIndices).

(** ** Neighbor search on the uniform grid (kernel.cu 458-822) *)

(** [std::fmod(p - gridMin, cellWidth) > cellWidth / 2]: the boid is in the
    upper half of its cell along this axis. *)
Definition upperHalf (gridMinC cellWidth c : R) : bool :=
  if Rgt_dec (fmod (c - gridMinC) cellWidth) (cellWidth / 2) then true else false.

(** [neighbor_cell_vec]: the cells of the 2x2x2 block inside the grid, in the
    order of the three nested loops, padded with [-1] up to eight entries. *)
Definition neighborCells (gridResolution base_x base_y base_z : Z) : list Z :=
  let inside :=
    flat_map (fun i => flat_map (fun j => flat_map (fun k =>
      let neighbor_z := iadd base_z i in
      let neighbor_y := iadd base_y j in
      let neighbor_x := iadd base_x k in
      if ((neighbor_x <? 0) || (neighbor_x >=? gridResolution)
          || (neighbor_y <? 0) || (neighbor_y >=? gridResolution)
          || (neighbor_z <? 0) || (neighbor_z >=? gridResolution))%Z
      then []
      else [gridIndex3Dto1D neighbor_x neighbor_y neighbor_z gridResolution])
      [0; 1]%Z) [0; 1]%Z) [0; 1]%Z in
  inside ++ repeat (-1)%Z (8 - length inside).

(** The accumulators of the neighbor loop.  [rule3_count] is incremented but
    never read in the source; it is left out. *)
Record accum : Type := Accum {
  rule1 : vec3;
  rule1_count : Z;
  rule2 : vec3;
  rule3 : vec3
}.

Definition accum0 : accum := Accum vzero 0 vzero vzero.

(** Body of the inner loop for one fetched [neighbor_index]. *)
Definition neighbor_iter (pos vel1 : list vec3) (boid_index : Z)
    (a : accum) (neighbor_index : Z) : accum :=
  if (neighbor_index =? boid_index)%Z then a
  else
    let length := vlength (vsub (aread vzero pos boid_index)
                                (aread vzero pos neighbor_index)) in
    let a := if Rlt_dec length rule1Distance
             then Accum (vadd (rule1 a) (aread vzero pos neighbor_index))
                        (rule1_count a + 1)%Z (rule2 a) (rule3 a)
             else a in
    let a := if Rlt_dec length rule2Distance
             then Accum (rule1 a) (rule1_count a)
                        (vsub (rule2 a) (vsub (aread vzero pos neighbor_index)
                                              (aread vzero pos boid_index)))
                        (rule3 a)
             else a in
    if Rlt_dec length rule3Distance
    then Accum (rule1 a) (rule1_count a) (rule2 a)
               (vadd (rule3 a) (aread vzero vel1 neighbor_index))
    else a.

(** The sort positions [j] that the inner loop runs over for one entry of
    [neighbor_cell_vec]: none for a [-1] entry ([continue]) and none unless
    [end > start && start > 0]. *)
Definition cellSlots (gridCellStartIndices gridCellEndIndices : list Z)
    (neighbor_cell_index : Z) : list Z :=
  if (neighbor_cell_index <? 0)%Z then []
  else
    let s := aread 0%Z gridCellStartIndices neighbor_cell_index in
    let e := aread 0%Z gridCellEndIndices neighbor_cell_index in
    if ((e >? s) && (s >? 0))%Z then seqZ s (e - s) else [].

(** Both loops: [fetch j] is the particle read at sort position [j]. *)
Definition scanNeighbors (fetch : Z -> Z) (pos vel1 : list vec3)
    (gridCellStartIndices gridCellEndIndices : list Z)
    (boid_index : Z) (neighbor_cell_vec : list Z) : accum :=
  fold_left
    (fun a neighbor_cell_index =>
       fold_left (fun a j => neighbor_iter pos vel1 boid_index a (fetch j))
                 (cellSlots gridCellStartIndices gridCellEndIndices neighbor_cell_index)
                 a)
    neighbor_cell_vec accum0.

(** The statements after the loops: scale the rules, add the current velocity
    and restrict the speed. *)
Definition finishVelocity (a : accum) (selfPos selfVel : vec3) : vec3 :=
  let r1 := if (rule1_count a =? 0)%Z then rule1 a
            else vdiv (rule1 a) (IZR (rule1_count a)) in
  let r1 := vscale (vsub r1 selfPos) rule1Scale in
  let r2 := vscale (rule2 a) rule2Scale in
  let r3 := vscale (rule3 a) rule3Scale in
  let vel_change := vzero in
  let vel_change := vadd vel_change r1 in
  let vel_change := vadd vel_change r2 in
  let vel_change := vadd vel_change r3 in
  let vel_change := vadd vel_change selfVel in
  restrictSpeed vel_change.

(** The candidate cells of a boid at position [p]. *)
Definition candidateCells (gridResolution : Z) (gridMin : vec3)
    (inverseCellWidth cellWidth : R) (p : vec3) : list Z :=
  let x := float2int ((vx p - vx gridMin) * inverseCellWidth) in
  let y := float2int ((vy p - vy gridMin) * inverseCellWidth) in
  let z := float2int ((vz p - vz gridMin) * inverseCellWidth) in
  let cell_x := upperHalf (vx gridMin) cellWidth (vx p) in
  let cell_y := upperHalf (vy gridMin) cellWidth (vy p) in
  let cell_z := upperHalf (vz gridMin) cellWidth (vz p) in
  let base_x := if cell_x then x else isub x 1 in
  let base_y := if cell_y then y else isub y 1 in
  let base_z := if cell_z then z else isub z 1 in
  neighborCells gridResolution base_x base_y base_z.

(** [kernUpdateVelNeighborSearchScattered]; the array [neighbor_cell] that
    the source fills first is never read and is left out. *)
Definition kernUpdateVelNeighborSearchScattered_thread
    (N : nat) (gridResolution : Z) (gridMin : vec3)
    (inverseCellWidth cellWidth : R)
    (gridCellStartIndices gridCellEndIndices particleArrayIndices : list Z)
    (pos vel1 : list vec3) (index : nat) (vel2 : list vec3) : list vec3 :=
  if (index <? N)%nat then
    let boid_index := nth index particleArrayIndices 0%Z in
    let neighbor_cell_vec :=
      candidateCells gridResolution gridMin inverseCellWidth cellWidth
                     (aread vzero pos boid_index) in
    let a := scanNeighbors (fun j => aread 0%Z particleArrayIndices j) pos vel1
                           gridCellStartIndices gridCellEndIndices
                           boid_index neighbor_cell_vec in
    awrite vel2 boid_index
           (finishVelocity a (aread vzero pos boid_index) (aread vzero vel1 boid_index))
  else vel2.

Definition kernUpdateVelNeighborSearchScattered
    (N : nat) (gridResolution : Z) (gridMin : vec3)
    (inverseCellWidth cellWidth : R)
    (gridCellStartIndices gridCellEndIndices particleArrayIndices : list Z)
    (pos vel1 vel2 : list vec3) : list vec3 :=
  launch N (kernUpdateVelNeighborSearchScattered_thread N gridResolution gridMin
              inverseCellWidth cellWidth gridCellStartIndices gridCellEndIndices
              particleArrayIndices pos vel1) vel2.

(** [kernUpdateVelNeighborSearchCoherent]: the thread index is the boid and
    the sort position is the neighbor. *)
Definition kernUpdateVelNeighborSearchCoherent_thread
    (N : nat) (gridResolution : Z) (gridMin : vec3)
    (inverseCellWidth cellWidth : R)
    (gridCellStartIndices gridCellEndIndices : list Z)
    (pos vel1 : list vec3) (boid_index : nat) (vel2 : list vec3) : list vec3 :=
  if (boid_index <? N)%nat then
    let neighbor_cell_vec :=
      candidateCells gridResolution gridMin inverseCellWidth cellWidth
                     (nth boid_index pos vzero) in
    let a := scanNeighbors (fun j => j) pos vel1
                           gridCellStartIndices gridCellEndIndices
                           (Z.of_nat boid_index) neighbor_cell_vec in
    <[boid_index := finishVelocity a (nth boid_index pos vzero)
                                     (nth boid_index vel1 vzero)]> vel2
  else vel2.

Definition kernUpdateVelNeighborSearchCoherent
    (N : nat) (gridResolution : Z) (gridMin : vec3)
    (inverseCellWidth cellWidth : R)
    (gridCellStartIndices gridCellEndIndices : list Z)
    (pos vel1 vel2 : list vec3) : list vec3 :=
  launch N (kernUpdateVelNeighborSearchCoherent_thread N gridResolution gridMin
              inverseCellWidth cellWidth gridCellStartIndices gridCellEndIndices
              pos vel1) vel2.

(** ** Grid parameters computed by [Boids::initSimulation] (kernel.cu 167-177) *)

Record Grid : Type := MkGrid {
  gridCellCount : Z;
  gridSideCount : Z;
  gridCellWidth : R;
  gridInverseCellWidth : R;
  gridMinimum : vec3
}.

(** [gridMinimum] is a global, zero before [initSimulation] subtracts
    [halfGridWidth] from each coordinate. *)
Definition initGrid : Grid :=
  let gridCellWidth := 2 * Rmax (Rmax rule1Distance rule2Distance) rule3Distance in
  let halfSideCount := iadd (float2int (scene_scale / gridCellWidth)) 1 in
  let gridSideCount := imul 2 halfSideCount in
  let halfGridWidth := gridCellWidth * IZR halfSideCount in
  {| gridCellCount := imul (imul gridSideCount gridSideCount) gridSideCount;
     gridSideCount := gridSideCount;
     gridCellWidth := gridCellWidth;
     gridInverseCellWidth := 1 / gridCellWidth;
     gridMinimum := Vec3 (0 - halfGridWidth) (0 - halfGridWidth) (0 - halfGridWidth) |}.

(** ** Sorting *)

(** Modelled from the spec: [thrust::sort_by_key] is a library routine, not
    code of the repository.  Section 4.2 gives its contract: the [N]
    (key, payload) pairs are reordered so that the keys ascend; pairs with
    equal keys may come out in any order.  [sort_by_key keys vals keys' vals']
    says that [(keys', vals')] is a possible result of sorting
    [(keys, vals)]. *)
Definition sort_by_key {A : Type} (keys : list Z) (vals : list A)
    (keys' : list Z) (vals' : list A) : Prop :=
  length keys' = length vals'
  /\ Permutation (combine keys vals) (combine keys' vals')
  /\ Sorted Z.le keys'.

(** A sort that keeps pairs with equal keys in their order (insertion sort),
    one of the results the contract allows. *)
Fixpoint insert_by_key {A : Type} (k : Z) (v : A) (l : list (Z * A)) : list (Z * A) :=
  match l with
  | [] => [(k, v)]
  | (k', v') :: l' =>
      if (k <=? k')%Z then (k, v) :: (k', v') :: l'
      else (k', v') :: insert_by_key k v l'
  end.

Definition stable_sort_by_key {A : Type} (keys : list Z) (vals : list A)
    : list Z * list A :=
  let sorted := fold_right (fun kv acc => insert_by_key (fst kv) (snd kv) acc)
                           [] (combine keys vals) in
  (map fst sorted, map snd sorted).

(** ** Simulation steps on arrays (kernel.cu 827-1010)

    The buffers of the simulation.  [dev_vel1] and [dev_vel2] name the
    contents of the buffers the two pointers of the source refer to; the
    pointer exchange at the end of a step exchanges the two fields. *)
Record Sim : Type := MkSim {
  dev_pos : list vec3;
  dev_vel1 : list vec3;
  dev_vel2 : list vec3;
  dev_particleArrayIndices : list Z;
  dev_particleGridIndices : list Z;
  dev_gridCellStartIndices : list Z;
  dev_gridCellEndIndices : list Z
}.

Definition stepSimulationNaive (numObjects : nat) (dt : R) (s : Sim) : Sim :=
  let vel2 := kernUpdateVelocityBruteForce numObjects (dev_pos s) (dev_vel1 s) (dev_vel2 s) in
  let pos := kernUpdatePos numObjects dt (dev_pos s) vel2 in
  {| dev_pos := pos;
     dev_vel1 := vel2;
     dev_vel2 := dev_vel1 s;
     dev_particleArrayIndices := dev_particleArrayIndices s;
     dev_particleGridIndices := dev_particleGridIndices s;
     dev_gridCellStartIndices := dev_gridCellStartIndices s;
     dev_gridCellEndIndices := dev_gridCellEndIndices s |}.

(** The part of both grid steps before the sort: reset the cell ranges and
    label the particles.  Result: [(starts, ends, indices, gridIndices)]. *)
Definition labelParticles (g : Grid) (numObjects : nat) (s : Sim)
    : list Z * list Z * (list Z * list Z) :=
  let starts := kernResetIntBuffer (Z.to_nat (gridCellCount g))
                                   (dev_gridCellStartIndices s) (-1) in
  let ends := kernResetIntBuffer (Z.to_nat (gridCellCount g))
                                 (dev_gridCellEndIndices s) (-1) in
  (starts, ends,
   kernComputeIndices numObjects (gridSideCount g) (gridMinimum g)
     (gridInverseCellWidth g) (dev_pos s)
     (dev_particleArrayIndices s) (dev_particleGridIndices s)).

(** The scattered step after the sort has produced the sorted keys
    [gridIndices'] with their payload [arrayIndices']: up to the velocities
    written to [dev_vel2]. *)
Definition scatteredVelocities (g : Grid) (numObjects : nat) (s : Sim)
    (gridIndices' arrayIndices' : list Z) : list Z * list Z * list vec3 :=
  let '(starts, ends, _) := labelParticles g numObjects s in
  let '(starts, ends) :=
    kernIdentifyCellStartEnd numObjects gridIndices' starts ends in
  (starts, ends,
   kernUpdateVelNeighborSearchScattered numObjects (gridSideCount g)
     (gridMinimum g) (gridInverseCellWidth g) (gridCellWidth g)
     starts ends arrayIndices' (dev_pos s) (dev_vel1 s) (dev_vel2 s)).


(** The coherent step after its three sorts: [gridIndices'] with payload
    [arrayIndices'], and the reordered [pos'] and [vel1']. *)
Definition coherentVelocities (g : Grid) (numObjects : nat) (s : Sim)
    (gridIndices' : list Z) (pos' vel1' : list vec3)
    : list Z * list Z * list vec3 :=
  let '(starts, ends, _) := labelParticles g numObjects s in
  let '(starts, ends) :=
    kernIdentifyCellStartEnd numObjects gridIndices' starts ends in
  (starts, ends,
   kernUpdateVelNeighborSearchCoherent numObjects (gridSideCount g)
     (gridMinimum g) (gridInverseCellWidth g) (gridCellWidth g)
     starts ends pos' vel1' (dev_vel2 s)).

(** The three sorts of [stepSimulationCoherentGrid]: each one sorts its own
    copy of the unsorted keys, with the array indices, the positions and the
    velocities as payload. *)
Definition coherentSorts (g : Grid) (numObjects : nat) (s : Sim)
    (gridIndices' arrayIndices' : list Z)
    (posKeys' : list Z) (pos' : list vec3)
    (velKeys' : list Z) (vel1' : list vec3) : Prop :=
  let keys := snd (snd (labelParticles g numObjects s)) in
  let indices := fst (snd (labelParticles g numObjects s)) in
  sort_by_key keys indices gridIndices' arrayIndices'
  /\ sort_by_key keys (dev_pos s) posKeys' pos'
  /\ sort_by_key keys (dev_vel1 s) velKeys' vel1'.


(** The order of the three sorted arrays is given by one permutation [pi] of
    the particle slots. *)
Definition alignedBy (pi : list nat) (s : Sim)
    (arrayIndices' : list Z) (pos' vel1' : list vec3) : Prop :=
  Permutation pi (seq 0 (length (dev_pos s)))
  /\ arrayIndices' = map Z.of_nat pi
  /\ pos' = map (fun i => nth i (dev_pos s) vzero) pi
  /\ vel1' = map (fun i => nth i (dev_vel1 s) vzero) pi.

(** ** The device: buffers behind pointers

    The three [glm::vec3*] globals are pointers into device memory.  A kernel
    gets pointers and every thread reads and writes through them, so two
    parameters may name one buffer. *)
Module Device.

Definition ptr : Type := nat.

Record state : Type := MkState {
  heap : gmap ptr (list vec3);
  numObjects : nat;
  dev_pos : ptr;
  dev_vel1 : ptr;
  dev_vel2 : ptr
}.

Definition deref (h : gmap ptr (list vec3)) (p : ptr) : list vec3 :=
  default [] (h !! p).

Definition kernUpdateVelocityBruteForce_thread (N : nat) (pos vel1 vel2 : ptr)
    (index : nat) (h : gmap ptr (list vec3)) : gmap ptr (list vec3) :=
  if (N <=? index)%nat then h
  else <[vel2 := <[index := computeVelocityChange N index (deref h pos) (deref h vel1)]>
                   (deref h vel2)]> h.

Definition kernUpdateVelocityBruteForce (N : nat) (pos vel1 vel2 : ptr)
    (h : gmap ptr (list vec3)) : gmap ptr (list vec3) :=
  launch N (kernUpdateVelocityBruteForce_thread N pos vel1 vel2) h.

Definition kernUpdatePos_thread (N : nat) (dt : R) (pos vel : ptr)
    (index : nat) (h : gmap ptr (list vec3)) : gmap ptr (list vec3) :=
  if (N <=? index)%nat then h
  else <[pos := <[index := integrate dt (nth index (deref h pos) vzero)
                                        (nth index (deref h vel) vzero)]>
                  (deref h pos)]> h.

Definition kernUpdatePos (N : nat) (dt : R) (pos vel : ptr)
    (h : gmap ptr (list vec3)) : gmap ptr (list vec3) :=
  launch N (kernUpdatePos_thread N dt pos vel) h.

(** [Boids::stepSimulationNaive]: two launches, then the three assignments
    that exchange [dev_vel1] and [dev_vel2]. *)
Definition stepSimulationNaive (dt : R) (st : state) : state :=
  let h := kernUpdateVelocityBruteForce (numObjects st) (dev_pos st)
             (dev_vel1 st) (dev_vel2 st) (heap st) in
  let h := kernUpdatePos (numObjects st) dt (dev_pos st) (dev_vel2 st) h in
  let tmp_pt := dev_vel1 st in
  {| heap := h;
     numObjects := numObjects st;
     dev_pos := dev_pos st;
     dev_vel1 := dev_vel2 st;
     dev_vel2 := tmp_pt |}.

End Device.

(** ** Notions used in the statements *)


(** No other particle of the [N] is closer than [d] to particle [iSelf]. *)
Definition noneWithin (d : R) (N iSelf : nat) (pos : list vec3) : Prop :=
  forall i, (i < N)%nat -> i <> iSelf ->
            ~ vlength (vsub (nth iSelf pos vzero) (nth i pos vzero)) < d.

(** Number of keys below [c], up to [c], and equal to [c]: the last one is
    the number of particles whose grid cell id is [c]. *)
Fixpoint countBelow (c : Z) (keys : list Z) : nat :=
  match keys with
  | [] => 0
  | k :: ks => ((if (k <? c)%Z then 1 else 0) + countBelow c ks)%nat
  end.

Fixpoint countUpTo (c : Z) (keys : list Z) : nat :=
  match keys with
  | [] => 0
  | k :: ks => ((if (k <=? c)%Z then 1 else 0) + countUpTo c ks)%nat
  end.

Fixpoint countCell (c : Z) (keys : list Z) : nat :=
  match keys with
  | [] => 0
  | k :: ks => ((if (k =? c)%Z then 1 else 0) + countCell c ks)%nat
  end.

Definition sumZ (l : list Z) : Z := fold_right Z.add 0%Z l.

(** The populated cells, each once. *)
Definition populatedCells (keys : list Z) : list Z := nodup Z.eq_dec keys.

(** The last thread below [n] that writes cell [c], when thread [i] writes
    cell [k i] if [w i] holds. *)
Fixpoint last_writer (w : nat -> bool) (k : nat -> Z) (n : nat) (c : Z) : option nat :=
  match n with
  | O => None
  | S m => if w m && (k m =? c)%Z then Some m else last_writer w k m c
  end.

(** Two particles at rest, one unit apart, in the same grid cell. *)
Definition twoCloseBoids : Sim :=
  MkSim [Vec3 1 1 1; Vec3 2 1 1] [vzero; vzero] [vzero; vzero]
        [0; 1]%Z [0; 0]%Z
        (repeat (-1)%Z (Z.to_nat 10648)) (repeat (-1)%Z (Z.to_nat 10648)).

(** Two particles in the same grid cell with different velocities. *)
Definition twoMovingBoids : Sim :=
  MkSim [Vec3 1 1 1; Vec3 2 1 1] [Vec3 1 0 0; Vec3 0 1 0] [vzero; vzero]
        [0; 1]%Z [0; 0]%Z
        (repeat (-1)%Z (Z.to_nat 10648)) (repeat (-1)%Z (Z.to_nat 10648)).

(** ** copyBoidsToVBO (kernel.cu 205-244)

    The vertex buffers are arrays of [float], four per particle. *)

Definition kernCopyPositionsToVBO_thread (N : nat) (pos : list vec3)
    (s_scale : R) (index : nat) (vbo : list R) : list R :=
  let c_scale := -1 / s_scale in
  if (index <? N)%nat then
    let vbo := <[(4 * index + 0)%nat := vx (nth index pos vzero) * c_scale]> vbo in
    let vbo := <[(4 * index + 1)%nat := vy (nth index pos vzero) * c_scale]> vbo in
    let vbo := <[(4 * index + 2)%nat := vz (nth index pos vzero) * c_scale]> vbo in
    <[(4 * index + 3)%nat := 1]> vbo
  else vbo.

Definition kernCopyPositionsToVBO (N : nat) (pos : list vec3) (vbo : list R)
    (s_scale : R) : list R :=
  launch N (kernCopyPositionsToVBO_thread N pos s_scale) vbo.

Definition kernCopyVelocitiesToVBO_thread (N : nat) (vel : list vec3)
    (s_scale : R) (index : nat) (vbo : list R) : list R :=
  if (index <? N)%nat then
    let vbo := <[(4 * index + 0)%nat := vx (nth index vel vzero) + 3 / 10]> vbo in
    let vbo := <[(4 * index + 1)%nat := vy (nth index vel vzero) + 3 / 10]> vbo in
    let vbo := <[(4 * index + 2)%nat := vz (nth index vel vzero) + 3 / 10]> vbo in
    <[(4 * index + 3)%nat := 1]> vbo
  else vbo.

Definition kernCopyVelocitiesToVBO (N : nat) (vel : list vec3) (vbo : list R)
    (s_scale : R) : list R :=
  launch N (kernCopyVelocitiesToVBO_thread N vel s_scale) vbo.

(** [Boids::copyBoidsToVBO]: the positions and the current velocities
    ([dev_vel1]) go to the two vertex buffers. *)
Definition copyBoidsToVBO (numObjects : nat) (s : Sim)
    (vbodptr_positions vbodptr_velocities : list R) : list R * list R :=
  (kernCopyPositionsToVBO numObjects (dev_pos s) vbodptr_positions scene_scale,
   kernCopyVelocitiesToVBO numObjects (dev_vel1 s) vbodptr_velocities scene_scale).

(** ** Further notions used in the statements *)

(** The cube [-scene_scale, scene_scale]^3. *)
Definition inScene (p : vec3) : Prop :=
  (- scene_scale <= vx p <= scene_scale)
  /\ (- scene_scale <= vy p <= scene_scale)
  /\ (- scene_scale <= vz p <= scene_scale).

(** The cell coordinate and the cell id that [kernComputeIndices] and both
    grid kernels compute for a position. *)
Definition cellCoordinate (gridMinC inverseCellWidth c : R) : Z :=
  float2int ((c - gridMinC) * inverseCellWidth).

Definition cellOf (gridResolution : Z) (gridMin : vec3)
    (inverseCellWidth : R) (p : vec3) : Z :=
  gridIndex3Dto1D (cellCoordinate (vx gridMin) inverseCellWidth (vx p))
                  (cellCoordinate (vy gridMin) inverseCellWidth (vy p))
                  (cellCoordinate (vz gridMin) inverseCellWidth (vz p))
                  gridResolution.

(** The particles fetched by the two loops of a grid kernel, in order. *)
Definition fetched (fetch : Z -> Z)
    (gridCellStartIndices gridCellEndIndices : list Z)
    (neighbor_cell_vec : list Z) : list Z :=
  map fetch (flat_map (cellSlots gridCellStartIndices gridCellEndIndices)
                      neighbor_cell_vec).

(** The device state [st] holds the three vector buffers of [s] behind three
    different pointers. *)
Definition represents (st : Device.state) (N : nat) (s : Sim) : Prop :=
  Device.numObjects st = N
  /\ Device.heap st !! Device.dev_pos st = Some (dev_pos s)
  /\ Device.heap st !! Device.dev_vel1 st = Some (dev_vel1 s)
  /\ Device.heap st !! Device.dev_vel2 st = Some (dev_vel2 s)
  /\ Device.dev_pos st <> Device.dev_vel1 st
  /\ Device.dev_pos st <> Device.dev_vel2 st
  /\ Device.dev_vel1 st <> Device.dev_vel2 st.


(** * Properties *)

(** ** Launches and buffers *)

Lemma fullBlocks_cover (N : nat) : (N <= fullBlocksPerGrid N * blockSize)%nat.
Proof.
  unfold fullBlocksPerGrid, blockSize.
  pose proof (Nat.div_mod_eq (N + 128 - 1) 128) as Hdm.
  pose proof (Nat.mod_upper_bound (N + 128 - 1) 128 ltac:(lia)) as Hub.
  lia.
Qed.

Lemma fold_left_fixed {S B : Type} (f : S -> B -> S) (l : list B) (s : S) :
  (forall i, In i l -> forall s', f s' i = s') -> fold_left f l s = s.
Proof.
  revert s. induction l as [|i l IH]; intros s Hfix; simpl; [reflexivity|].
  rewrite Hfix by (left; reflexivity).
  apply IH. intros j Hj. apply Hfix. right; exact Hj.
Qed.

Lemma fold_left_ext_in {S B : Type} (f g : S -> B -> S) (l : list B) (s : S) :
  (forall acc i, In i l -> f acc i = g acc i) ->
  fold_left f l s = fold_left g l s.
Proof.
  revert s. induction l as [|b l IH]; intros s Hfg; simpl; [reflexivity|].
  rewrite Hfg by (left; reflexivity).
  apply IH. intros acc i Hi. apply Hfg. right; exact Hi.
Qed.

(** The threads beyond [N] return at once: a launch is the run of the
    threads [0 .. N-1]. *)
Lemma launch_guarded {S : Type} (N : nat) (thread : nat -> S -> S) (s : S) :
  (forall index s', (N <= index)%nat -> thread index s' = s') ->
  launch N thread s = fold_left (fun acc index => thread index acc) (seq 0 N) s.
Proof.
  intros Hguard. unfold launch.
  pose proof (fullBlocks_cover N) as Hcov.
  replace (fullBlocksPerGrid N * blockSize)%nat
    with (N + (fullBlocksPerGrid N * blockSize - N))%nat by lia.
  rewrite seq_app, fold_left_app. simpl.
  apply fold_left_fixed. intros i Hi s'. apply Hguard.
  apply in_seq in Hi. lia.
Qed.

Lemma nth_insert_eq {A : Type} (l : list A) (i : nat) (x d : A) :
  (i < length l)%nat -> nth i (<[i := x]> l) d = x.
Proof.
  intros Hi. rewrite nth_lookup, list_lookup_insert_eq by exact Hi. reflexivity.
Qed.

Lemma nth_insert_ne {A : Type} (l : list A) (i j : nat) (x d : A) :
  i <> j -> nth j (<[i := x]> l) d = nth j l d.
Proof.
  intros Hij. rewrite !nth_lookup, list_lookup_insert_ne by exact Hij. reflexivity.
Qed.

(** A run of threads [0 .. n-1] in which thread [i] overwrites slot [i] with
    a value computed from the old slot [i] only. *)
Lemma fold_own_slot {A : Type} (f : nat -> A -> A) (d : A) (n : nat) (l : list A) :
  (n <= length l)%nat ->
  let l' := fold_left (fun acc i => <[i := f i (nth i acc d)]> acc) (seq 0 n) l in
  length l' = length l
  /\ forall i, nth i l' d = if (i <? n)%nat then f i (nth i l d) else nth i l d.
Proof.
  induction n as [|n IH]; intros Hn; cbv zeta.
  - simpl. split; [reflexivity|]. intros i. reflexivity.
  - rewrite seq_S, fold_left_app. simpl.
    destruct IH as [Hlen Hnth]; [lia|].
    split.
    + rewrite length_insert. exact Hlen.
    + intros i. destruct (Nat.eq_dec n i) as [->|Hne].
      * rewrite nth_insert_eq by lia.
        rewrite Hnth. rewrite (proj2 (Nat.ltb_ge i i)) by lia.
        rewrite (proj2 (Nat.ltb_lt i (S i))) by lia. reflexivity.
      * rewrite nth_insert_ne by exact Hne. rewrite Hnth.
        destruct (Nat.ltb_spec i n), (Nat.ltb_spec i (S n)); try lia; reflexivity.
Qed.

(** ** The integrator *)

Lemma kernUpdatePos_fold (N : nat) (dt : R) (pos vel : list vec3) :
  kernUpdatePos N dt pos vel
  = fold_left (fun acc i =>
                 <[i := integrate dt (nth i acc vzero) (nth i vel vzero)]> acc)
              (seq 0 N) pos.
Proof.
  unfold kernUpdatePos. rewrite launch_guarded.
  - apply fold_left_ext_in. intros acc i Hi. apply in_seq in Hi.
    unfold kernUpdatePos_thread.
    rewrite (proj2 (Nat.leb_gt N i)) by lia. reflexivity.
  - intros index s' Hge. unfold kernUpdatePos_thread.
    rewrite (proj2 (Nat.leb_le N index)) by lia. reflexivity.
Qed.

Lemma kernUpdatePos_nth (N : nat) (dt : R) (pos vel : list vec3) (index : nat) :
  (index < N)%nat -> (N <= length pos)%nat ->
  nth index (kernUpdatePos N dt pos vel) vzero
  = integrate dt (nth index pos vzero) (nth index vel vzero).
Proof.
  intros Hi HN. rewrite kernUpdatePos_fold.
  destruct (fold_own_slot (fun i p => integrate dt p (nth i vel vzero)) vzero N pos HN)
    as [_ Hnth].
  rewrite Hnth. rewrite (proj2 (Nat.ltb_lt index N)) by exact Hi. reflexivity.
Qed.

(** The two wrap tests on one coordinate. *)
Lemma wrap_below (c : R) :
  c < - scene_scale -> wrapAbove (wrapBelow c) = scene_scale.
Proof.
  unfold wrapAbove, wrapBelow. intros Hc.
  destruct (Rlt_dec c (- scene_scale)) as [_|Hn]; [|lra].
  destruct (Rgt_dec scene_scale scene_scale) as [Hgt|_]; [lra|reflexivity].
Qed.

Lemma wrap_above (c : R) :
  c > scene_scale -> wrapAbove (wrapBelow c) = - scene_scale.
Proof.
  unfold wrapAbove, wrapBelow. intros Hc.
  destruct (Rlt_dec c (- scene_scale)) as [Hlt|_];
    [unfold scene_scale in *; lra|].
  destruct (Rgt_dec c scene_scale) as [_|Hn]; [reflexivity|lra].
Qed.

Lemma wrap_inside (c : R) :
  - scene_scale <= c <= scene_scale -> wrapAbove (wrapBelow c) = c.
Proof.
  unfold wrapAbove, wrapBelow. intros Hc.
  destruct (Rlt_dec c (- scene_scale)) as [Hlt|_]; [lra|].
  destruct (Rgt_dec c scene_scale) as [Hgt|_]; [lra|reflexivity].
Qed.

Lemma wrap_range (c : R) :
  - scene_scale <= wrapAbove (wrapBelow c) <= scene_scale.
Proof.
  destruct (Rlt_dec c (- scene_scale)) as [Hlt|Hge].
  - rewrite wrap_below by exact Hlt. unfold scene_scale. lra.
  - destruct (Rgt_dec c scene_scale) as [Hgt|Hle].
    + rewrite wrap_above by exact Hgt. unfold scene_scale. lra.
    + rewrite wrap_inside by lra. lra.
Qed.

Lemma integrate_coords (dt : R) (p v : vec3) :
  vx (integrate dt p v) = wrapAbove (wrapBelow (vx p + vx v * dt))
  /\ vy (integrate dt p v) = wrapAbove (wrapBelow (vy p + vy v * dt))
  /\ vz (integrate dt p v) = wrapAbove (wrapBelow (vz p + vz v * dt)).
Proof. repeat split. Qed.

(** C4 -- for every particle and every axis, once the integrator has added
    velocity * dt to the position, a coordinate below -scene_scale is stored
    as exactly +scene_scale and a coordinate above +scene_scale as exactly
    -scene_scale; with scene_scale = 100, a particle at x = 100.5 that moves
    further in the positive direction is stored at x = -100. *)
Theorem kernUpdatePos_hard_reset
    (N : nat) (dt : R) (pos vel : list vec3) (index : nat) :
  (index < N)%nat -> (N <= length pos)%nat ->
  let moved := vadd (nth index pos vzero) (vscale (nth index vel vzero) dt) in
  let stored := nth index (kernUpdatePos N dt pos vel) vzero in
  (vx moved < - scene_scale -> vx stored = scene_scale)
  /\ (vx moved > scene_scale -> vx stored = - scene_scale)
  /\ (vy moved < - scene_scale -> vy stored = scene_scale)
  /\ (vy moved > scene_scale -> vy stored = - scene_scale)
  /\ (vz moved < - scene_scale -> vz stored = scene_scale)
  /\ (vz moved > scene_scale -> vz stored = - scene_scale)
  /\ scene_scale = 100
  /\ (vx (nth index pos vzero) = 100.5 -> vx (nth index vel vzero) * dt > 0 ->
      vx stored = -100).
Proof.
  intros Hi HN moved stored. subst stored.
  rewrite kernUpdatePos_nth by assumption.
  destruct (integrate_coords dt (nth index pos vzero) (nth index vel vzero))
    as (Hx & Hy & Hz).
  rewrite Hx, Hy, Hz. subst moved. simpl.
  repeat split; try apply wrap_below; try apply wrap_above.
  intros Hpos Hdrift. rewrite wrap_above; unfold scene_scale; lra.
Qed.

Lemma kernUpdatePos_hard_reset_witness :
  vx (nth 0 (kernUpdatePos 1 1 [Vec3 100.5 0 0] [Vec3 1 0 0]) vzero) = -100.
Proof.
  pose proof (kernUpdatePos_hard_reset 1 1 [Vec3 100.5 0 0] [Vec3 1 0 0] 0%nat
                ltac:(lia) ltac:(simpl; lia)) as H.
  cbv zeta in H. destruct H as (_ & _ & _ & _ & _ & _ & _ & H).
  apply H; simpl; lra.
Defined.

(** C10 -- for every particle whose coordinates all lie in
    [-scene_scale, +scene_scale] before integration, every coordinate lies in
    that closed interval afterwards, whatever the velocity and the timestep;
    a coordinate that lands exactly on -scene_scale or on +scene_scale is
    stored unchanged, both wrap tests being strict. *)
Theorem kernUpdatePos_stays_in_scene
    (N : nat) (dt : R) (pos vel : list vec3) (index : nat) :
  (index < N)%nat -> (N <= length pos)%nat ->
  - scene_scale <= vx (nth index pos vzero) <= scene_scale ->
  - scene_scale <= vy (nth index pos vzero) <= scene_scale ->
  - scene_scale <= vz (nth index pos vzero) <= scene_scale ->
  let moved := vadd (nth index pos vzero) (vscale (nth index vel vzero) dt) in
  let stored := nth index (kernUpdatePos N dt pos vel) vzero in
  (- scene_scale <= vx stored <= scene_scale
   /\ - scene_scale <= vy stored <= scene_scale
   /\ - scene_scale <= vz stored <= scene_scale)
  /\ (vx moved = - scene_scale \/ vx moved = scene_scale -> vx stored = vx moved)
  /\ (vy moved = - scene_scale \/ vy moved = scene_scale -> vy stored = vy moved)
  /\ (vz moved = - scene_scale \/ vz moved = scene_scale -> vz stored = vz moved).
Proof.
  intros Hi HN _ _ _ moved stored. subst stored.
  rewrite kernUpdatePos_nth by assumption.
  destruct (integrate_coords dt (nth index pos vzero) (nth index vel vzero))
    as (Hx & Hy & Hz).
  rewrite Hx, Hy, Hz. subst moved. simpl.
  split; [repeat split; apply wrap_range|].
  repeat split; intros Hedge; apply wrap_inside;
    unfold scene_scale in *; lra.
Qed.

Lemma kernUpdatePos_stays_in_scene_witness :
  vx (nth 0 (kernUpdatePos 1 1 [Vec3 99 0 0] [Vec3 1 0 0]) vzero) = 100.
Proof.
  pose proof (kernUpdatePos_stays_in_scene 1 1 [Vec3 99 0 0] [Vec3 1 0 0] 0%nat
                ltac:(lia) ltac:(simpl; lia)
                ltac:(simpl; unfold scene_scale; lra)
                ltac:(simpl; unfold scene_scale; lra)
                ltac:(simpl; unfold scene_scale; lra)) as H.
  cbv zeta in H. destruct H as (_ & H & _ & _).
  rewrite H; simpl; [lra | right; unfold scene_scale; lra].
Defined.

(** ** Vectors *)

Lemma vec3_ext (a b : vec3) :
  vx a = vx b -> vy a = vy b -> vz a = vz b -> a = b.
Proof. destruct a, b; simpl; intros -> -> ->; reflexivity. Qed.

Ltac vec3_lra := apply vec3_ext; simpl; lra.

Lemma vdot_nonneg (a : vec3) : 0 <= vdot a a.
Proof. unfold vdot. nra. Qed.

Lemma vlength_nonneg (a : vec3) : 0 <= vlength a.
Proof. apply sqrt_pos. Qed.


(** [vlength a < d] is a test on the squared length. *)
Lemma vlength_lt_iff (a : vec3) (d : R) :
  0 < d -> (vlength a < d <-> vdot a a < d * d).
Proof.
  intros Hd. unfold vlength. rewrite <- (sqrt_square d) at 1 by lra.
  split.
  - intros H. apply sqrt_lt_0_alt in H. exact H.
  - intros H. apply sqrt_lt_1_alt. split; [apply vdot_nonneg | exact H].
Qed.

Lemma vlength_le_iff (a : vec3) (d : R) :
  0 <= d -> (vlength a <= d <-> vdot a a <= d * d).
Proof.
  intros Hd. unfold vlength. rewrite <- (sqrt_square d) at 1 by lra.
  split.
  - intros H. apply sqrt_le_0 in H; [exact H | apply vdot_nonneg | nra].
  - intros H. apply sqrt_le_1_alt. exact H.
Qed.

(** ** The speed limit *)

Lemma restrictSpeed_slow (v : vec3) :
  vlength v <= maxSpeed -> restrictSpeed v = v.
Proof.
  intros Hle. unfold restrictSpeed.
  destruct (Rgt_dec (vlength v) maxSpeed) as [Hgt|_]; [lra|reflexivity].
Qed.





(** ** The rules for a particle without neighbors *)

Lemma rule1_loop_isolated (N iSelf : nat) (pos : list vec3) (acc : vec3 * Z) :
  noneWithin rule1Distance N iSelf pos ->
  fold_left (rule1_iter iSelf pos) (seq 0 N) acc = acc.
Proof.
  intros Hfar. apply fold_left_fixed. intros i Hi s'. apply in_seq in Hi.
  unfold rule1_iter. destruct (Nat.eqb_spec i iSelf) as [|Hne]; [reflexivity|].
  destruct (Rlt_dec _ _) as [Hlt|_]; [|reflexivity].
  exfalso. apply (Hfar i); [lia | exact Hne | exact Hlt].
Qed.

Lemma rule2_loop_isolated (N iSelf : nat) (pos : list vec3) (acc : vec3) :
  noneWithin rule2Distance N iSelf pos ->
  fold_left (rule2_iter iSelf pos) (seq 0 N) acc = acc.
Proof.
  intros Hfar. apply fold_left_fixed. intros i Hi s'. apply in_seq in Hi.
  unfold rule2_iter. destruct (Nat.eqb_spec i iSelf) as [|Hne]; [reflexivity|].
  destruct (Rlt_dec _ _) as [Hlt|_]; [|reflexivity].
  exfalso. apply (Hfar i); [lia | exact Hne | exact Hlt].
Qed.

Lemma rule3_loop_isolated (N iSelf : nat) (pos vel : list vec3) (acc : vec3) :
  noneWithin rule3Distance N iSelf pos ->
  fold_left (rule3_iter iSelf pos vel) (seq 0 N) acc = acc.
Proof.
  intros Hfar. apply fold_left_fixed. intros i Hi s'. apply in_seq in Hi.
  unfold rule3_iter. destruct (Nat.eqb_spec i iSelf) as [|Hne]; [reflexivity|].
  destruct (Rlt_dec _ _) as [Hlt|_]; [|reflexivity].
  exfalso. apply (Hfar i); [lia | exact Hne | exact Hlt].
Qed.

(** What the code computes for an isolated particle: rules 2 and 3 add
    nothing, and rule 1 subtracts the particle's own position from the zero
    vector, because only the division is guarded by [count != 0]. *)
Lemma combinedVelocity_isolated (N iSelf : nat) (pos vel : list vec3) :
  noneWithin rule1Distance N iSelf pos ->
  noneWithin rule2Distance N iSelf pos ->
  noneWithin rule3Distance N iSelf pos ->
  kernUpdateVelocityRule1 N iSelf pos
  = vscale (vsub vzero (nth iSelf pos vzero)) rule1Scale
  /\ combinedVelocity N iSelf pos vel
     = vsub (nth iSelf vel vzero) (vscale (nth iSelf pos vzero) rule1Scale).
Proof.
  intros H1 H2 H3.
  assert (Hr1 : kernUpdateVelocityRule1 N iSelf pos
                = vscale (vsub vzero (nth iSelf pos vzero)) rule1Scale).
  { unfold kernUpdateVelocityRule1. rewrite rule1_loop_isolated by exact H1.
    reflexivity. }
  split; [exact Hr1|].
  unfold combinedVelocity. rewrite Hr1.
  unfold kernUpdateVelocityRule2, kernUpdateVelocityRule3.
  rewrite rule2_loop_isolated by exact H2.
  rewrite rule3_loop_isolated by exact H3.
  vec3_lra.
Qed.

Lemma far_apart_on_x (a b d : R) :
  0 < d -> d * d <= (a - b) * (a - b) ->
  ~ vlength (vsub (Vec3 a 0 0) (Vec3 b 0 0)) < d.
Proof.
  intros Hd Hfar Hlt. apply vlength_lt_iff in Hlt; [|exact Hd].
  unfold vdot, vsub in Hlt; simpl in Hlt. lra.
Qed.

(** C2 -- the code at an isolated particle: of two particles 40 apart on
    the x axis, both at rest, the one at (10,0,0) has no particle within any
    rule distance, yet its cohesion term is (-1/10, 0, 0) and its new velocity
    is (-1/10, 0, 0), not its current velocity (0,0,0). *)
Theorem isolated_particle_velocity_changes :
  let pos := [Vec3 10 0 0; Vec3 50 0 0] in
  let vel := [vzero; vzero] in
  noneWithin rule1Distance 2 0 pos
  /\ noneWithin rule2Distance 2 0 pos
  /\ noneWithin rule3Distance 2 0 pos
  /\ kernUpdateVelocityRule1 2 0 pos = Vec3 (-1 / 10) 0 0
  /\ computeVelocityChange 2 0 pos vel = Vec3 (-1 / 10) 0 0
  /\ computeVelocityChange 2 0 pos vel <> nth 0 vel vzero.
Proof.
  intros pos vel.
  assert (Hfar : forall d, 0 < d -> d <= 5 -> noneWithin d 2 0 pos).
  { intros d Hd Hd5 i Hi Hne.
    assert (i = 1)%nat as -> by lia. subst pos; simpl.
    apply far_apart_on_x; [exact Hd | nra]. }
  assert (H1 : noneWithin rule1Distance 2 0 pos) by (apply Hfar; unfold rule1Distance; lra).
  assert (H2 : noneWithin rule2Distance 2 0 pos) by (apply Hfar; unfold rule2Distance; lra).
  assert (H3 : noneWithin rule3Distance 2 0 pos) by (apply Hfar; unfold rule3Distance; lra).
  destruct (combinedVelocity_isolated 2 0 pos vel H1 H2 H3) as [Hr1 Hcomb].
  assert (Hc : combinedVelocity 2 0 pos vel = Vec3 (-1 / 10) 0 0).
  { rewrite Hcomb. subst pos vel. unfold rule1Scale. vec3_lra. }
  assert (Hv : computeVelocityChange 2 0 pos vel = Vec3 (-1 / 10) 0 0).
  { unfold computeVelocityChange. rewrite Hc. apply restrictSpeed_slow.
    apply vlength_le_iff; unfold maxSpeed, vdot; simpl; lra. }
  repeat split; try assumption.
  - rewrite Hr1. subst pos. unfold rule1Scale. vec3_lra.
  - rewrite Hv. subst vel; simpl. intros Heq.
    apply (f_equal vx) in Heq. simpl in Heq. lra.
Qed.

(** ** The grid indexer *)

Lemma wrap32_small (z : Z) :
  (- 2 ^ 31 <= z < 2 ^ 31)%Z -> wrap32 z = z.
Proof.
  intros Hz. unfold wrap32.
  rewrite Z.mod_small by lia. lia.
Qed.

Lemma float2int_nonneg (r : R) : 0 <= r -> float2int r = Zfloor r.
Proof.
  intros Hr. unfold float2int.
  destruct (Rle_dec 0 r) as [_|Hn]; [reflexivity|lra].
Qed.

(** A coordinate inside the grid falls in one of the cells [0 .. side-1]. *)
Lemma cell_coordinate_range (c gmin cellWidth : R) (side : Z) :
  0 < cellWidth ->
  gmin <= c < gmin + IZR side * cellWidth ->
  float2int ((c - gmin) * (1 / cellWidth)) = Zfloor ((c - gmin) * (1 / cellWidth))
  /\ (0 <= Zfloor ((c - gmin) * (1 / cellWidth)) < side)%Z.
Proof.
  intros Hw [Hlo Hhi].
  assert (Hinv : 0 < 1 / cellWidth) by (apply Rdiv_lt_0_compat; lra).
  assert (Hq0 : 0 <= (c - gmin) * (1 / cellWidth)) by (apply Rmult_le_pos; lra).
  assert (Hq1 : (c - gmin) * (1 / cellWidth) < IZR side).
  { replace (IZR side) with (IZR side * cellWidth * (1 / cellWidth))
      by (field; lra).
    apply Rmult_lt_compat_r; lra. }
  split; [apply float2int_nonneg; exact Hq0|].
  pose proof (Zfloor_bound ((c - gmin) * (1 / cellWidth))) as [Hfl Hfu].
  split.
  - apply Zfloor_lub. simpl. exact Hq0.
  - apply lt_IZR. lra.
Qed.

Lemma gridIndex3Dto1D_exact (x y z side : Z) :
  (0 <= x < side)%Z -> (0 <= y < side)%Z -> (0 <= z < side)%Z ->
  (side * side * side <= INT_MAX)%Z ->
  gridIndex3Dto1D x y z side = (x + y * side + z * side * side)%Z
  /\ (0 <= gridIndex3Dto1D x y z side < side * side * side)%Z.
Proof.
  intros Hx Hy Hz Hfit. unfold INT_MAX in Hfit.
  assert (Hyz : (0 <= y * side <= (side - 1) * side)%Z) by nia.
  assert (Hzs : (0 <= z * side <= (side - 1) * side)%Z) by nia.
  assert (Hzss : (0 <= z * side * side <= (side - 1) * side * side)%Z) by nia.
  assert (Hss : (side * side <= side * side * side)%Z) by nia.
  assert (Hs : (side <= side * side)%Z) by nia.
  unfold gridIndex3Dto1D, iadd, imul.
  rewrite (wrap32_small (y * side)) by lia.
  rewrite (wrap32_small (x + y * side)) by lia.
  rewrite (wrap32_small (z * side)) by lia.
  rewrite (wrap32_small (z * side * side)) by lia.
  rewrite wrap32_small by lia.
  split; [reflexivity | nia].
Qed.

Lemma fold_left_pair_slots {A B : Type} (a : nat -> A) (b : nat -> B)
    (l : list nat) (u : list A) (v : list B) :
  fold_left (fun (acc : list A * list B) i =>
               (<[i := a i]> (fst acc), <[i := b i]> (snd acc))) l (u, v)
  = (fold_left (fun acc i => <[i := a i]> acc) l u,
     fold_left (fun acc i => <[i := b i]> acc) l v).
Proof.
  revert u v. induction l as [|i l IH]; intros u v; simpl; [reflexivity|].
  apply IH.
Qed.

Lemma kernComputeIndices_nth (N : nat) (gridResolution : Z) (gridMin : vec3)
    (inverseCellWidth : R) (pos : list vec3) (indices gridIndices : list Z)
    (index : nat) :
  (index < N)%nat -> (N <= length indices)%nat -> (N <= length gridIndices)%nat ->
  let out := kernComputeIndices N gridResolution gridMin inverseCellWidth pos
                                indices gridIndices in
  nth index (fst out) 0%Z = Z.of_nat index
  /\ nth index (snd out) 0%Z
     = gridIndex3Dto1D
         (float2int ((vx (nth index pos vzero) - vx gridMin) * inverseCellWidth))
         (float2int ((vy (nth index pos vzero) - vy gridMin) * inverseCellWidth))
         (float2int ((vz (nth index pos vzero) - vz gridMin) * inverseCellWidth))
         gridResolution.
Proof.
  intros Hi Hlen1 Hlen2 out. subst out. unfold kernComputeIndices.
  rewrite launch_guarded.
  2:{ intros i s' Hge. unfold kernComputeIndices_thread.
      rewrite (proj2 (Nat.ltb_ge i N)) by lia. reflexivity. }
  erewrite fold_left_ext_in.
  2:{ intros acc i Hin. apply in_seq in Hin. unfold kernComputeIndices_thread.
      rewrite (proj2 (Nat.ltb_lt i N)) by lia. cbv zeta. reflexivity. }
  rewrite (fold_left_pair_slots
             (fun i => Z.of_nat i)
             (fun i => gridIndex3Dto1D
                (float2int ((vx (nth i pos vzero) - vx gridMin) * inverseCellWidth))
                (float2int ((vy (nth i pos vzero) - vy gridMin) * inverseCellWidth))
                (float2int ((vz (nth i pos vzero) - vz gridMin) * inverseCellWidth))
                gridResolution)).
  simpl. split.
  - destruct (fold_own_slot (fun i _ => Z.of_nat i) 0%Z N indices Hlen1) as [_ H].
    rewrite H. rewrite (proj2 (Nat.ltb_lt index N)) by exact Hi. reflexivity.
  - destruct (fold_own_slot
                (fun i (_ : Z) => gridIndex3Dto1D
                   (float2int ((vx (nth i pos vzero) - vx gridMin) * inverseCellWidth))
                   (float2int ((vy (nth i pos vzero) - vy gridMin) * inverseCellWidth))
                   (float2int ((vz (nth i pos vzero) - vz gridMin) * inverseCellWidth))
                   gridResolution) 0%Z N gridIndices Hlen2) as [_ H].
    rewrite H. rewrite (proj2 (Nat.ltb_lt index N)) by exact Hi. reflexivity.
Qed.


(** ** The cell-range builder *)

Lemma length_awrite {A : Type} (a : list A) (i : Z) (v : A) :
  length (awrite a i v) = length a.
Proof.
  unfold awrite. destruct (i <? 0)%Z; [reflexivity | apply length_insert].
Qed.

Lemma aread_awrite_eq {A : Type} (d : A) (a : list A) (i : Z) (v : A) :
  (0 <= i < Z.of_nat (length a))%Z -> aread d (awrite a i v) i = v.
Proof.
  intros Hi. unfold aread, awrite.
  rewrite (proj2 (Z.ltb_ge i 0)) by lia.
  apply nth_insert_eq. lia.
Qed.

Lemma aread_awrite_ne {A : Type} (d : A) (a : list A) (i j : Z) (v : A) :
  i <> j -> aread d (awrite a i v) j = aread d a j.
Proof.
  intros Hij. unfold aread, awrite.
  destruct (Z.ltb_spec j 0) as [|Hj]; [reflexivity|].
  destruct (Z.ltb_spec i 0) as [|Hi]; [reflexivity|].
  apply nth_insert_ne. lia.
Qed.

Lemma fold_left_pair {A B : Type} (f : nat -> A -> A) (g : nat -> B -> B)
    (l : list nat) (u : A) (v : B) :
  fold_left (fun (acc : A * B) i => (f i (fst acc), g i (snd acc))) l (u, v)
  = (fold_left (fun a i => f i a) l u, fold_left (fun b i => g i b) l v).
Proof.
  revert u v. induction l as [|i l IH]; intros u v; simpl; [reflexivity|].
  apply IH.
Qed.

(** After the threads [0 .. n-1], cell [c] holds what its last writer wrote,
    or what it held before if no thread wrote it. *)
Lemma fold_conditional_writes (w : nat -> bool) (k v : nat -> Z)
    (n : nat) (a0 : list Z) :
  let a := fold_left (fun a i => if w i then awrite a (k i) (v i) else a)
                     (seq 0 n) a0 in
  length a = length a0
  /\ forall c, (0 <= c < Z.of_nat (length a0))%Z ->
       aread 0%Z a c = match last_writer w k n c with
                       | Some i => v i
                       | None => aread 0%Z a0 c
                       end.
Proof.
  induction n as [|n IH]; cbv zeta.
  - simpl. split; [reflexivity|]. intros c _. reflexivity.
  - rewrite seq_S, fold_left_app. simpl.
    destruct IH as [Hlen Hrd].
    destruct (w n) eqn:Hw; simpl.
    + split; [rewrite length_awrite; exact Hlen|].
      intros c Hc. destruct (Z.eqb_spec (k n) c) as [->|Hne].
      * apply aread_awrite_eq. rewrite Hlen. exact Hc.
      * rewrite aread_awrite_ne by exact Hne. apply Hrd. exact Hc.
    + split; [exact Hlen|]. intros c Hc. apply Hrd. exact Hc.
Qed.

Lemma last_writer_unique (w : nat -> bool) (k : nat -> Z) (n : nat) (c : Z) (i : nat) :
  (i < n)%nat -> w i = true -> k i = c ->
  (forall j, (j < n)%nat -> w j = true -> k j = c -> j = i) ->
  last_writer w k n c = Some i.
Proof.
  induction n as [|n IH]; intros Hi Hw Hk Huniq; [lia|].
  simpl. destruct (w n && (k n =? c)%Z) eqn:Hn.
  - apply andb_true_iff in Hn as [Hwn Hkn]. apply Z.eqb_eq in Hkn.
    f_equal. apply Huniq; [lia | exact Hwn | exact Hkn].
  - assert (i <> n).
    { intros ->. rewrite Hw, Hk, Z.eqb_refl in Hn. discriminate. }
    apply IH; [lia | exact Hw | exact Hk |].
    intros j Hj. apply Huniq. lia.
Qed.

Lemma last_writer_none (w : nat -> bool) (k : nat -> Z) (n : nat) (c : Z) :
  (forall j, (j < n)%nat -> k j <> c) -> last_writer w k n c = None.
Proof.
  induction n as [|n IH]; intros Hno; [reflexivity|].
  simpl. destruct (Z.eqb_spec (k n) c) as [Heq|_].
  - exfalso. apply (Hno n); [lia | exact Heq].
  - rewrite andb_false_r. apply IH. intros j Hj. apply Hno. lia.
Qed.

(** Counting in any list. *)
Lemma count_cell_split (c : Z) (keys : list Z) :
  (countBelow c keys + countCell c keys = countUpTo c keys)%nat.
Proof.
  induction keys as [|k ks IH]; simpl; [reflexivity|].
  destruct (Z.ltb_spec k c), (Z.leb_spec k c), (Z.eqb_spec k c); lia.
Qed.

Lemma countBelow_none (c : Z) (keys : list Z) :
  Forall (fun k => (c <= k)%Z) keys -> countBelow c keys = 0%nat.
Proof.
  induction 1 as [|k ks Hk _ IH]; simpl; [reflexivity|].
  rewrite IH. destruct (Z.ltb_spec k c); [lia | reflexivity].
Qed.

Lemma countUpTo_none (c : Z) (keys : list Z) :
  Forall (fun k => (c < k)%Z) keys -> countUpTo c keys = 0%nat.
Proof.
  induction 1 as [|k ks Hk _ IH]; simpl; [reflexivity|].
  rewrite IH. destruct (Z.leb_spec k c); [lia | reflexivity].
Qed.

(** Counting in an ascending list: the keys below [c] are the first
    [countBelow c] ones, the keys up to [c] the first [countUpTo c] ones. *)
Lemma sorted_below (c : Z) (keys : list Z) :
  StronglySorted Z.le keys ->
  forall j, (j < length keys)%nat ->
            ((nth j keys 0 < c)%Z <-> (j < countBelow c keys)%nat).
Proof.
  induction 1 as [|a l Hs IH Hall]; intros j Hj; simpl in Hj; [lia|].
  simpl. destruct (Z.ltb_spec a c) as [Hac|Hac].
  - destruct j as [|j]; [split; intros; lia|].
    rewrite IH by lia. lia.
  - rewrite countBelow_none.
    2:{ eapply Forall_impl; [exact Hall|]. simpl. intros; lia. }
    destruct j as [|j]; [lia|].
    rewrite List.Forall_forall in Hall.
    assert (a <= nth j l 0)%Z by (apply Hall, nth_In; lia).
    lia.
Qed.

Lemma sorted_upto (c : Z) (keys : list Z) :
  StronglySorted Z.le keys ->
  forall j, (j < length keys)%nat ->
            ((nth j keys 0 <= c)%Z <-> (j < countUpTo c keys)%nat).
Proof.
  induction 1 as [|a l Hs IH Hall]; intros j Hj; simpl in Hj; [lia|].
  simpl. destruct (Z.leb_spec a c) as [Hac|Hac].
  - destruct j as [|j]; [split; intros; lia|].
    rewrite IH by lia. lia.
  - rewrite countUpTo_none.
    2:{ eapply Forall_impl; [exact Hall|]. simpl. intros; lia. }
    destruct j as [|j]; [lia|].
    rewrite List.Forall_forall in Hall.
    assert (a <= nth j l 0)%Z by (apply Hall, nth_In; lia).
    lia.
Qed.

Lemma sorted_cell_interval (c : Z) (keys : list Z) :
  StronglySorted Z.le keys ->
  forall j, (j < length keys)%nat ->
            (nth j keys 0%Z = c <-> (countBelow c keys <= j < countUpTo c keys)%nat).
Proof.
  intros Hs j Hj.
  pose proof (sorted_below c keys Hs j Hj).
  pose proof (sorted_upto c keys Hs j Hj).
  lia.
Qed.

Lemma countUpTo_le_length (c : Z) (keys : list Z) :
  (countUpTo c keys <= length keys)%nat.
Proof.
  induction keys as [|k ks IH]; simpl; [lia|].
  destruct (k <=? c)%Z; lia.
Qed.

Section CellRanges.

Variable keys : list Z.
Hypothesis keys_sorted : StronglySorted Z.le keys.

Let N : nat := length keys.
Let key (i : nat) : Z := nth i keys 0%Z.

(** Thread [i] writes a start exactly when [i] is the first position of its
    cell, and an end exactly when [i] is the last one. *)
Lemma startsRun_first (i : nat) :
  (i < N)%nat ->
  (startsRun keys i = true <-> i = countBelow (key i) keys).
Proof.
  intros Hi. unfold startsRun. fold (key i) (key (i - 1)).
  pose proof (proj1 (sorted_cell_interval (key i) keys keys_sorted i Hi) eq_refl)
    as [Hlo Hhi].
  rewrite orb_true_iff, Nat.eqb_eq, negb_true_iff, Z.eqb_neq.
  split.
  - intros [->|Hne]; [lia|].
    destruct i as [|i']; [lia|].
    replace (S i' - 1)%nat with i' in Hne by lia.
    assert (Hle : (key i' <= key (S i'))%Z).
    { apply (sorted_upto (key (S i')) keys keys_sorted i'); lia. }
    assert (Hlt : (key i' < key (S i'))%Z) by lia.
    apply (sorted_below (key (S i')) keys keys_sorted i') in Hlt; lia.
  - intros Heq. destruct i as [|i']; [left; reflexivity|]. right.
    replace (S i' - 1)%nat with i' by lia.
    assert (Hlt : (key i' < key (S i'))%Z).
    { apply (sorted_below (key (S i')) keys keys_sorted i'); lia. }
    lia.
Qed.

Lemma endsRun_last (i : nat) :
  (i < N)%nat ->
  (endsRun N keys i = true <-> (i + 1)%nat = countUpTo (key i) keys).
Proof.
  intros Hi. unfold endsRun. fold (key i) (key (i + 1)%nat).
  pose proof (proj1 (sorted_cell_interval (key i) keys keys_sorted i Hi) eq_refl)
    as [Hlo Hhi].
  pose proof (countUpTo_le_length (key i) keys) as Hcu. fold N in Hcu.
  rewrite orb_true_iff, Nat.eqb_eq, negb_true_iff, Z.eqb_neq.
  destruct (Nat.eq_dec (i + 1)%nat N) as [Hend|Hin].
  - split; [lia | intros _; left; lia].
  - assert (Hi1 : (i + 1 < N)%nat) by lia.
    pose proof (sorted_below (key i) keys keys_sorted (i + 1)%nat Hi1) as Hb.
    pose proof (sorted_upto (key i) keys keys_sorted (i + 1)%nat Hi1) as Hu.
    fold (key (i + 1)%nat) in Hb, Hu.
    split.
    + intros [Hlast|Hne]; lia.
    + intros Heq. right. lia.
Qed.

Lemma populated_interval (c : Z) :
  In c keys ->
  (countBelow c keys < countUpTo c keys <= N)%nat
  /\ key (countBelow c keys) = c
  /\ key (countUpTo c keys - 1) = c.
Proof.
  intros Hin. destruct (In_nth keys c 0%Z Hin) as (i0 & Hi0 & Hk0).
  pose proof (proj1 (sorted_cell_interval c keys keys_sorted i0 Hi0) Hk0) as [Hlo Hhi].
  pose proof (countUpTo_le_length c keys) as Hcu. fold N in Hcu.
  split; [lia|]. split.
  - apply (sorted_cell_interval c keys keys_sorted); lia.
  - apply (sorted_cell_interval c keys keys_sorted); lia.
Qed.

Variables starts ends : list Z.

Lemma kernIdentifyCellStartEnd_folds :
  kernIdentifyCellStartEnd N keys starts ends
  = (fold_left (fun a i => if startsRun keys i
                           then awrite a (key i) (Z.of_nat i) else a)
               (seq 0 N) starts,
     fold_left (fun a i => if endsRun N keys i
                           then awrite a (key i) (Z.of_nat i + 1)%Z else a)
               (seq 0 N) ends).
Proof.
  unfold kernIdentifyCellStartEnd. rewrite launch_guarded.
  2:{ intros i s' Hge. unfold kernIdentifyCellStartEnd_thread.
      rewrite (proj2 (Nat.ltb_ge i N)) by lia. reflexivity. }
  erewrite fold_left_ext_in.
  2:{ intros acc i Hin. apply in_seq in Hin.
      unfold kernIdentifyCellStartEnd_thread.
      rewrite (proj2 (Nat.ltb_lt i N)) by lia. cbv zeta. reflexivity. }
  apply (fold_left_pair
           (fun i a => if startsRun keys i then awrite a (key i) (Z.of_nat i) else a)
           (fun i a => if endsRun N keys i
                       then awrite a (key i) (Z.of_nat i + 1)%Z else a)).
Qed.

(** The ranges the kernel leaves for a populated cell, and the entries of
    the cells it does not touch. *)
Lemma kernIdentifyCellStartEnd_ranges (c : Z) :
  let out := kernIdentifyCellStartEnd N keys starts ends in
  (0 <= c < Z.of_nat (length starts))%Z ->
  (0 <= c < Z.of_nat (length ends))%Z ->
  (In c keys ->
     aread 0%Z (fst out) c = Z.of_nat (countBelow c keys)
     /\ aread 0%Z (snd out) c = Z.of_nat (countUpTo c keys))
  /\ (~ In c keys ->
     aread 0%Z (fst out) c = aread 0%Z starts c
     /\ aread 0%Z (snd out) c = aread 0%Z ends c).
Proof.
  intros out Hcs Hce. subst out. rewrite kernIdentifyCellStartEnd_folds. simpl.
  destruct (fold_conditional_writes (startsRun keys) key Z.of_nat N starts)
    as [_ Hs].
  destruct (fold_conditional_writes (endsRun N keys) key
              (fun i => (Z.of_nat i + 1)%Z) N ends) as [_ He].
  rewrite (Hs c Hcs), (He c Hce). split.
  - intros Hin. destruct (populated_interval c Hin) as (Hrange & Hfirst & Hlast).
    rewrite (last_writer_unique _ _ _ _ (countBelow c keys)).
    + rewrite (last_writer_unique _ _ _ _ (countUpTo c keys - 1)%nat).
      * split; [reflexivity | lia].
      * lia.
      * apply endsRun_last; [lia|]. rewrite Hlast. lia.
      * exact Hlast.
      * intros j Hj Hw Hk. apply endsRun_last in Hw; [|exact Hj].
        rewrite Hk in Hw. lia.
    + lia.
    + apply startsRun_first; [lia|]. rewrite Hfirst. reflexivity.
    + exact Hfirst.
    + intros j Hj Hw Hk. apply startsRun_first in Hw; [|exact Hj].
      rewrite Hk in Hw. exact Hw.
  - intros Hnot.
    assert (Hno : forall j, (j < N)%nat -> key j <> c).
    { intros j Hj Heq. apply Hnot. rewrite <- Heq. apply nth_In. exact Hj. }
    rewrite !last_writer_none by exact Hno. split; reflexivity.
Qed.

End CellRanges.

Lemma sumZ_indicator (k : Z) (D : list Z) :
  List.NoDup D -> In k D ->
  sumZ (map (fun c => if (k =? c)%Z then 1 else 0)%Z D) = 1%Z.
Proof.
  induction 1 as [|d D Hd Hnd IH]; intros Hin; [destruct Hin|].
  simpl. destruct (Z.eqb_spec k d) as [->|Hne].
  - assert (Hzero : sumZ (map (fun c => if (d =? c)%Z then 1 else 0)%Z D) = 0%Z).
    { clear IH Hnd Hin. induction D as [|e D IHD]; [reflexivity|].
      simpl. destruct (Z.eqb_spec d e) as [->|_].
      - exfalso. apply Hd. left. reflexivity.
      - rewrite IHD; [reflexivity|]. intros H. apply Hd. right. exact H. }
    rewrite Hzero. reflexivity.
  - destruct Hin as [->|Hin]; [contradiction|]. rewrite IH by exact Hin. reflexivity.
Qed.

Lemma sumZ_map_add (f g : Z -> Z) (D : list Z) :
  sumZ (map (fun c => f c + g c)%Z D) = (sumZ (map f D) + sumZ (map g D))%Z.
Proof.
  induction D as [|d D IH]; simpl; [reflexivity|]. rewrite IH. lia.
Qed.

(** Summed over distinct cells that cover all keys, the cell counts give
    the number of keys. *)
Lemma sumZ_countCell (keys D : list Z) :
  List.NoDup D -> (forall k, In k keys -> In k D) ->
  sumZ (map (fun c => Z.of_nat (countCell c keys)) D) = Z.of_nat (length keys).
Proof.
  intros Hnd. induction keys as [|k ks IH]; intros Hcov.
  - clear Hnd Hcov. simpl. induction D as [|d D IHD]; [reflexivity|].
    simpl. rewrite IHD. reflexivity.
  - assert (Hstep : map (fun c => Z.of_nat (countCell c (k :: ks))) D
                    = map (fun c => (if (k =? c)%Z then 1 else 0)
                                    + Z.of_nat (countCell c ks))%Z D).
    { apply List.map_ext. intros c. simpl. destruct (k =? c)%Z; lia. }
    rewrite Hstep.
    rewrite (sumZ_map_add (fun c => if (k =? c)%Z then 1 else 0)%Z
                          (fun c => Z.of_nat (countCell c ks))).
    rewrite sumZ_indicator; [|exact Hnd | apply Hcov; left; reflexivity].
    rewrite IH; [simpl length; lia|].
    intros k' Hk'. apply Hcov. right. exact Hk'.
Qed.

Example kernIdentifyCellStartEnd_run :
  kernIdentifyCellStartEnd 3 [2; 2; 5]%Z (repeat (-1)%Z 8) (repeat (-1)%Z 8)
  = ([-1; -1; 0; -1; -1; 2; -1; -1]%Z, [-1; -1; 2; -1; -1; 3; -1; -1]%Z).
Proof. vm_compute. reflexivity. Qed.

(** C6 -- for an ascending key sequence of length N (cell ids inside the
    range buffers), the builder leaves start[key[i]] = i exactly when i = 0
    or key[i] <> key[i-1], and end[key[i]] = i+1 exactly when i = N-1 or
    key[i] <> key[i+1]; hence for every populated cell c, end[c] - start[c]
    is the number of particles whose cell id is c, and these differences
    summed over the populated cells give N. *)
Theorem kernIdentifyCellStartEnd_partition (keys starts ends : list Z) :
  Sorted Z.le keys ->
  (forall c, In c keys ->
     (0 <= c < Z.of_nat (length starts))%Z /\ (0 <= c < Z.of_nat (length ends))%Z) ->
  let N := length keys in
  let key := fun i : nat => nth i keys 0%Z in
  let out := kernIdentifyCellStartEnd N keys starts ends in
  let cellStart := fun c : Z => aread 0%Z (fst out) c in
  let cellEnd := fun c : Z => aread 0%Z (snd out) c in
  (forall i, (i < N)%nat ->
     (cellStart (key i) = Z.of_nat i
      <-> (i = 0%nat \/ key i <> key (i - 1)%nat)))
  /\ (forall i, (i < N)%nat ->
     (cellEnd (key i) = (Z.of_nat i + 1)%Z
      <-> (i = (N - 1)%nat \/ key i <> key (i + 1)%nat)))
  /\ (forall c, In c keys ->
     (cellEnd c - cellStart c)%Z = Z.of_nat (countCell c keys))
  /\ sumZ (map (fun c => cellEnd c - cellStart c)%Z (populatedCells keys))
     = Z.of_nat N.
Proof.
  intros Hsorted Hrange N key out cellStart cellEnd.
  assert (Hs : StronglySorted Z.le keys).
  { apply Sorted_StronglySorted; [|exact Hsorted].
    intros a b c Hab Hbc. exact (Z.le_trans a b c Hab Hbc). }
  assert (Hcell : forall c, In c keys ->
            cellStart c = Z.of_nat (countBelow c keys)
            /\ cellEnd c = Z.of_nat (countUpTo c keys)).
  { intros c Hin. destruct (Hrange c Hin) as [Hcs Hce].
    apply (kernIdentifyCellStartEnd_ranges keys Hs starts ends c Hcs Hce).
    exact Hin. }
  assert (Hdiff : forall c, In c keys ->
            (cellEnd c - cellStart c)%Z = Z.of_nat (countCell c keys)).
  { intros c Hin. destruct (Hcell c Hin) as [-> ->].
    pose proof (count_cell_split c keys). lia. }
  split; [|split; [|split]].
  - intros i Hi.
    destruct (Hcell (key i) (nth_In keys 0%Z Hi)) as [-> _].
    pose proof (startsRun_first keys Hs i Hi) as Hfirst.
    fold (key i) in Hfirst.
    unfold startsRun in Hfirst. fold (key i) (key (i - 1)%nat) in Hfirst.
    rewrite orb_true_iff, Nat.eqb_eq, negb_true_iff, Z.eqb_neq in Hfirst.
    rewrite Hfirst. lia.
  - intros i Hi.
    destruct (Hcell (key i) (nth_In keys 0%Z Hi)) as [_ ->].
    pose proof (endsRun_last keys Hs i Hi) as Hlast.
    fold (key i) N in Hlast.
    unfold endsRun in Hlast. fold (key i) (key (i + 1)%nat) in Hlast.
    rewrite orb_true_iff, Nat.eqb_eq, negb_true_iff, Z.eqb_neq in Hlast.
    rewrite Hlast. lia.
  - exact Hdiff.
  - unfold populatedCells.
    rewrite (map_ext_in _ (fun c => Z.of_nat (countCell c keys))).
    + apply sumZ_countCell; [apply NoDup_nodup|].
      intros k Hk. apply nodup_In. exact Hk.
    + intros c Hc. apply Hdiff. apply nodup_In in Hc. exact Hc.
Qed.

Lemma kernIdentifyCellStartEnd_partition_witness :
  let out := kernIdentifyCellStartEnd 3 [2; 2; 5]%Z
               (repeat (-1)%Z 8) (repeat (-1)%Z 8) in
  sumZ (map (fun c => aread 0 (snd out) c - aread 0 (fst out) c)%Z
            (populatedCells [2; 2; 5]%Z)) = 3%Z.
Proof.
  assert (Hsorted : Sorted Z.le [2; 2; 5]%Z).
  { repeat constructor; lia. }
  assert (Hrange : forall c, In c [2; 2; 5]%Z ->
            (0 <= c < Z.of_nat (length (repeat (-1)%Z 8)))%Z
            /\ (0 <= c < Z.of_nat (length (repeat (-1)%Z 8)))%Z).
  { intros c [<-|[<-|[<-|[]]]]; simpl; lia. }
  exact (proj2 (proj2 (proj2
    (kernIdentifyCellStartEnd_partition [2; 2; 5]%Z
       (repeat (-1)%Z 8) (repeat (-1)%Z 8) Hsorted Hrange)))).
Defined.

(** ** Buffers behind pointers: what the brute-force step touches *)

Lemma kernUpdateVelocityBruteForce_fold (N : nat) (pos vel1 vel2 : list vec3) :
  kernUpdateVelocityBruteForce N pos vel1 vel2
  = fold_left (fun acc i => <[i := computeVelocityChange N i pos vel1]> acc)
              (seq 0 N) vel2.
Proof.
  unfold kernUpdateVelocityBruteForce. rewrite launch_guarded.
  - apply fold_left_ext_in. intros acc i Hi. apply in_seq in Hi.
    unfold kernUpdateVelocityBruteForce_thread.
    rewrite (proj2 (Nat.leb_gt N i)) by lia. reflexivity.
  - intros index s' Hge. unfold kernUpdateVelocityBruteForce_thread.
    rewrite (proj2 (Nat.leb_le N index)) by lia. reflexivity.
Qed.

Lemma kernUpdateVelocityBruteForce_nth (N : nat) (pos vel1 vel2 : list vec3) :
  (N <= length vel2)%nat ->
  length (kernUpdateVelocityBruteForce N pos vel1 vel2) = length vel2
  /\ forall i, nth i (kernUpdateVelocityBruteForce N pos vel1 vel2) vzero
               = if (i <? N)%nat then computeVelocityChange N i pos vel1
                 else nth i vel2 vzero.
Proof.
  intros HN. rewrite kernUpdateVelocityBruteForce_fold.
  exact (fold_own_slot (fun i _ => computeVelocityChange N i pos vel1) vzero N vel2 HN).
Qed.

(** One thread of the evaluation kernel changes the heap at slot [index] of
    the buffer [vel2] and nowhere else. *)
Lemma bruteForce_thread_frame (N : nat) (pos vel1 vel2 : Device.ptr)
    (index : nat) (h : gmap Device.ptr (list vec3)) :
  let h' := Device.kernUpdateVelocityBruteForce_thread N pos vel1 vel2 index h in
  (forall p, p <> vel2 -> h' !! p = h !! p)
  /\ length (Device.deref h' vel2) = length (Device.deref h vel2)
  /\ (forall j, j <> index ->
        nth j (Device.deref h' vel2) vzero = nth j (Device.deref h vel2) vzero).
Proof.
  unfold Device.kernUpdateVelocityBruteForce_thread.
  destruct (N <=? index)%nat; cbv zeta.
  - repeat split; reflexivity.
  - split; [|split].
    + intros p Hp. apply lookup_insert_ne. congruence.
    + unfold Device.deref at 1. rewrite lookup_insert_eq. simpl.
      apply length_insert.
    + intros j Hj. unfold Device.deref at 1. rewrite lookup_insert_eq. simpl.
      apply nth_insert_ne. congruence.
Qed.

(** With the output buffer distinct from both inputs, the launch on the heap
    is the launch on the three arrays. *)
Lemma device_bruteForce_arrays (N : nat) (pos vel1 vel2 : Device.ptr)
    (h : gmap Device.ptr (list vec3)) (V2 : list vec3) :
  h !! vel2 = Some V2 -> pos <> vel2 -> vel1 <> vel2 ->
  Device.kernUpdateVelocityBruteForce N pos vel1 vel2 h
  = <[vel2 := kernUpdateVelocityBruteForce N (Device.deref h pos)
                (Device.deref h vel1) V2]> h.
Proof.
  intros Hv2 Hp Hv1.
  unfold Device.kernUpdateVelocityBruteForce. rewrite launch_guarded.
  2:{ intros index s' Hge. unfold Device.kernUpdateVelocityBruteForce_thread.
      rewrite (proj2 (Nat.leb_le N index)) by lia. reflexivity. }
  rewrite kernUpdateVelocityBruteForce_fold.
  assert (Hrun : forall n, (n <= N)%nat ->
            fold_left (fun acc index =>
                         Device.kernUpdateVelocityBruteForce_thread N pos vel1 vel2 index acc)
                      (seq 0 n) h
            = <[vel2 := fold_left
                          (fun acc i => <[i := computeVelocityChange N i
                                                 (Device.deref h pos) (Device.deref h vel1)]> acc)
                          (seq 0 n) V2]> h); [|apply Hrun; lia].
  induction n as [|n IH]; intros Hn.
  - simpl. symmetry. apply insert_id. exact Hv2.
  - rewrite seq_S, !fold_left_app. simpl. rewrite IH by lia.
    unfold Device.kernUpdateVelocityBruteForce_thread.
    rewrite (proj2 (Nat.leb_gt N n)) by lia.
    unfold Device.deref.
    rewrite lookup_insert_eq, !lookup_insert_ne by congruence. simpl.
    rewrite insert_insert_eq. reflexivity.
Qed.

Lemma device_updatePos_arrays (N : nat) (dt : R) (pos vel : Device.ptr)
    (h : gmap Device.ptr (list vec3)) (P : list vec3) :
  h !! pos = Some P -> pos <> vel ->
  Device.kernUpdatePos N dt pos vel h
  = <[pos := kernUpdatePos N dt P (Device.deref h vel)]> h.
Proof.
  intros HP Hne.
  unfold Device.kernUpdatePos. rewrite launch_guarded.
  2:{ intros index s' Hge. unfold Device.kernUpdatePos_thread.
      rewrite (proj2 (Nat.leb_le N index)) by lia. reflexivity. }
  rewrite kernUpdatePos_fold.
  assert (Hrun : forall n, (n <= N)%nat ->
            fold_left (fun acc index =>
                         Device.kernUpdatePos_thread N dt pos vel index acc)
                      (seq 0 n) h
            = <[pos := fold_left
                         (fun acc i => <[i := integrate dt (nth i acc vzero)
                                                (nth i (Device.deref h vel) vzero)]> acc)
                         (seq 0 n) P]> h); [|apply Hrun; lia].
  induction n as [|n IH]; intros Hn.
  - simpl. symmetry. apply insert_id. exact HP.
  - rewrite seq_S, !fold_left_app. simpl. rewrite IH by lia.
    unfold Device.kernUpdatePos_thread.
    rewrite (proj2 (Nat.leb_gt N n)) by lia.
    unfold Device.deref.
    rewrite lookup_insert_eq, !lookup_insert_ne by congruence. simpl.
    rewrite insert_insert_eq. reflexivity.
Qed.

(** C9 -- evaluation writes, for each particle, only that particle's slot of
    the next-generation velocity buffer; the position buffer and the whole
    current-generation velocity buffer are the same after the evaluation
    launch; and the step ends by exchanging the two velocity pointers, the
    buffers themselves staying where they are. *)
Theorem stepSimulationNaive_buffers
    (dt : R) (st : Device.state) (P V1 V2 : list vec3) :
  Device.heap st !! Device.dev_pos st = Some P ->
  Device.heap st !! Device.dev_vel1 st = Some V1 ->
  Device.heap st !! Device.dev_vel2 st = Some V2 ->
  Device.dev_pos st <> Device.dev_vel1 st ->
  Device.dev_pos st <> Device.dev_vel2 st ->
  Device.dev_vel1 st <> Device.dev_vel2 st ->
  (Device.numObjects st <= length V2)%nat ->
  let N := Device.numObjects st in
  let evaluated :=
    Device.kernUpdateVelocityBruteForce N (Device.dev_pos st)
      (Device.dev_vel1 st) (Device.dev_vel2 st) (Device.heap st) in
  let st' := Device.stepSimulationNaive dt st in
  (forall h index,
     let h' := Device.kernUpdateVelocityBruteForce_thread N (Device.dev_pos st)
                 (Device.dev_vel1 st) (Device.dev_vel2 st) index h in
     (forall p, p <> Device.dev_vel2 st -> h' !! p = h !! p)
     /\ (forall j, j <> index ->
           nth j (Device.deref h' (Device.dev_vel2 st)) vzero
           = nth j (Device.deref h (Device.dev_vel2 st)) vzero))
  /\ evaluated !! Device.dev_pos st = Some P
  /\ evaluated !! Device.dev_vel1 st = Some V1
  /\ (forall i, nth i (Device.deref evaluated (Device.dev_vel2 st)) vzero
                = if (i <? N)%nat then computeVelocityChange N i P V1
                  else nth i V2 vzero)
  /\ Device.dev_vel1 st' = Device.dev_vel2 st
  /\ Device.dev_vel2 st' = Device.dev_vel1 st
  /\ Device.dev_pos st' = Device.dev_pos st
  /\ Device.heap st' !! Device.dev_vel2 st' = Some V1
  /\ Device.heap st' !! Device.dev_vel1 st' = evaluated !! Device.dev_vel2 st.
Proof.
  intros HP HV1 HV2 Hpv1 Hpv2 Hv12 HN N evaluated st'.
  assert (Hev : evaluated
                = <[Device.dev_vel2 st := kernUpdateVelocityBruteForce N P V1 V2]>
                    (Device.heap st)).
  { subst evaluated.
    rewrite (device_bruteForce_arrays N _ _ _ _ V2 HV2 Hpv2 Hv12).
    unfold Device.deref. rewrite HP, HV1. reflexivity. }
  split.
  { intros h index h'.
    destruct (bruteForce_thread_frame N (Device.dev_pos st) (Device.dev_vel1 st)
                (Device.dev_vel2 st) index h) as (Hframe & _ & Hslots).
    split; [exact Hframe | exact Hslots]. }
  assert (HevP : evaluated !! Device.dev_pos st = Some P).
  { rewrite Hev, lookup_insert_ne by congruence. exact HP. }
  assert (HevV1 : evaluated !! Device.dev_vel1 st = Some V1).
  { rewrite Hev, lookup_insert_ne by congruence. exact HV1. }
  split; [exact HevP|]. split; [exact HevV1|]. split.
  { intros i. unfold Device.deref. rewrite Hev, lookup_insert_eq. simpl.
    apply (kernUpdateVelocityBruteForce_nth N P V1 V2 HN). }
  subst st'. unfold Device.stepSimulationNaive. simpl.
  fold N. fold evaluated.
  rewrite (device_updatePos_arrays N dt _ _ evaluated P HevP Hpv2).
  repeat split.
  - rewrite lookup_insert_ne by congruence. exact HevV1.
  - rewrite lookup_insert_ne by congruence. reflexivity.
Qed.

Lemma stepSimulationNaive_buffers_witness :
  let st := Device.MkState
              (<[0%nat := [Vec3 1 0 0]]>
                 (<[1%nat := [Vec3 0 1 0]]> (<[2%nat := [vzero]]> ∅)))
              1%nat 0%nat 1%nat 2%nat in
  Device.dev_vel1 (Device.stepSimulationNaive 1 st) = 2%nat
  /\ Device.heap (Device.stepSimulationNaive 1 st) !! 1%nat = Some [Vec3 0 1 0].
Proof.
  intros st.
  pose proof (stepSimulationNaive_buffers 1 st [Vec3 1 0 0] [Vec3 0 1 0] [vzero]
                eq_refl eq_refl eq_refl
                ltac:(simpl; lia) ltac:(simpl; lia) ltac:(simpl; lia)
                ltac:(simpl; lia)) as H.
  cbv zeta in H. destruct H as (_ & _ & _ & _ & Hv1 & _ & _ & Hold & _).
  split; [exact Hv1 | exact Hold].
Defined.

(** ** The grid of the program *)

Lemma float2int_IZR (z : Z) : (0 <= z)%Z -> float2int (IZR z) = z.
Proof.
  intros Hz. rewrite float2int_nonneg by (apply IZR_le in Hz; exact Hz).
  apply ZfloorZ.
Qed.

Lemma float2int_between (z : Z) (r : R) :
  (0 <= z)%Z -> IZR z <= r < IZR z + 1 -> float2int r = z.
Proof.
  intros Hz Hr. rewrite float2int_nonneg.
  - apply Zfloor_eq. exact Hr.
  - apply IZR_le in Hz. lra.
Qed.

Lemma initGrid_values :
  initGrid = MkGrid 10648 22 10 (1 / 10) (Vec3 (-110) (-110) (-110)).
Proof.
  assert (Hw : 2 * Rmax (Rmax rule1Distance rule2Distance) rule3Distance = 10).
  { unfold rule1Distance, rule2Distance, rule3Distance.
    rewrite (Rmax_left 5 3) by lra. rewrite (Rmax_left 5 5) by lra. lra. }
  unfold initGrid. cbv zeta. rewrite Hw.
  replace (scene_scale / 10) with (IZR 10) by (unfold scene_scale; lra).
  rewrite float2int_IZR by lia.
  replace (iadd 10 1) with 11%Z by reflexivity.
  replace (imul 2 11) with 22%Z by reflexivity.
  replace (imul (imul 22 22) 22) with 10648%Z by reflexivity.
  f_equal. apply vec3_ext; simpl; lra.
Qed.


(** ** The guard of the neighbor loop *)

Lemma kernResetIntBuffer_repeat (N : nat) (intBuffer : list Z) (value : Z) :
  length intBuffer = N -> kernResetIntBuffer N intBuffer value = repeat value N.
Proof.
  intros Hlen. unfold kernResetIntBuffer. rewrite launch_guarded.
  2:{ intros i s' Hge. unfold kernResetIntBuffer_thread.
      rewrite (proj2 (Nat.ltb_ge i N)) by lia. reflexivity. }
  erewrite fold_left_ext_in.
  2:{ intros acc i Hin. apply in_seq in Hin. unfold kernResetIntBuffer_thread.
      rewrite (proj2 (Nat.ltb_lt i N)) by lia. reflexivity. }
  destruct (fold_own_slot (fun _ _ => value) value N intBuffer ltac:(lia))
    as [Hl Hnth].
  apply (nth_ext _ _ value value).
  - rewrite Hl, repeat_length. exact Hlen.
  - intros i Hi. rewrite Hnth, nth_repeat.
    rewrite Hl, Hlen in Hi. rewrite (proj2 (Nat.ltb_lt i N)) by exact Hi.
    reflexivity.
Qed.

Lemma kernIdentifyCellStartEnd_length (keys starts ends : list Z) :
  let out := kernIdentifyCellStartEnd (length keys) keys starts ends in
  length (fst out) = length starts /\ length (snd out) = length ends.
Proof.
  cbv zeta. rewrite kernIdentifyCellStartEnd_folds. simpl. split.
  - apply (fold_conditional_writes (startsRun keys)
             (fun i => nth i keys 0%Z) Z.of_nat (length keys) starts).
  - apply (fold_conditional_writes (endsRun (length keys) keys)
             (fun i => nth i keys 0%Z) (fun i => (Z.of_nat i + 1)%Z)
             (length keys) ends).
Qed.

(** A cell whose start entry is not positive is not scanned, whatever its
    end entry. *)
Lemma cellSlots_start_not_positive (starts ends : list Z) (c : Z) :
  (aread 0 starts c <= 0)%Z -> cellSlots starts ends c = [].
Proof.
  intros Hs. unfold cellSlots. destruct (c <? 0)%Z; [reflexivity|].
  cbv zeta. destruct (Z.gtb_spec (aread 0%Z starts c) 0) as [Hpos|_]; [lia|].
  rewrite andb_false_r. reflexivity.
Qed.

Lemma scanNeighbors_no_positive_start (fetch : Z -> Z) (pos vel1 : list vec3)
    (starts ends : list Z) (boid_index : Z) (cells : list Z) :
  (forall c, (aread 0%Z starts c <= 0)%Z) ->
  scanNeighbors fetch pos vel1 starts ends boid_index cells = accum0.
Proof.
  intros Hs. unfold scanNeighbors. apply fold_left_fixed.
  intros c _ a. rewrite cellSlots_start_not_positive by apply Hs. reflexivity.
Qed.


(** In every non-empty ascending key sequence the cell of the first sort
    position is populated, gets start entry 0, and is not scanned. *)
Lemma first_cell_not_scanned (keys starts ends : list Z) :
  StronglySorted Z.le keys -> keys <> [] ->
  (0 <= nth 0 keys 0 < Z.of_nat (length starts))%Z ->
  (0 <= nth 0 keys 0 < Z.of_nat (length ends))%Z ->
  let out := kernIdentifyCellStartEnd (length keys) keys starts ends in
  let c := nth 0 keys 0%Z in
  aread 0%Z (fst out) c = 0%Z
  /\ (0 < aread 0%Z (snd out) c)%Z
  /\ cellSlots (fst out) (snd out) c = [].
Proof.
  intros Hs Hne Hcs Hce out c.
  assert (Hlen : (0 < length keys)%nat) by (destruct keys; [congruence | simpl; lia]).
  assert (Hin : In c keys) by (apply nth_In; exact Hlen).
  destruct (kernIdentifyCellStartEnd_ranges keys Hs starts ends c Hcs Hce)
    as [Hpop _].
  destruct (Hpop Hin) as [Hstart Hend]. fold out in Hstart, Hend.
  assert (Hzero : countBelow c keys = 0%nat).
  { symmetry. apply (startsRun_first keys Hs 0 Hlen). reflexivity. }
  destruct (populated_interval keys Hs c Hin) as (Hrange & _ & _).
  rewrite Hzero in Hstart. simpl in Hstart.
  split; [exact Hstart|]. split; [lia|].
  apply cellSlots_start_not_positive. lia.
Qed.

Lemma one_cell_ranges (k : Z) (M : nat) :
  (0 <= k < Z.of_nat M)%Z ->
  let out := kernIdentifyCellStartEnd 2 [k; k]
               (repeat (-1)%Z M) (repeat (-1)%Z M) in
  (forall c, (aread 0%Z (fst out) c <= 0)%Z)
  /\ aread 0%Z (fst out) k = 0%Z
  /\ aread 0%Z (snd out) k = 2%Z.
Proof.
  intros Hk out.
  assert (Hs : StronglySorted Z.le [k; k]).
  { repeat constructor. lia. }
  pose proof (kernIdentifyCellStartEnd_length [k; k]
                (repeat (-1)%Z M) (repeat (-1)%Z M)) as Hl.
  cbv zeta in Hl. change (length [k; k]) with 2%nat in Hl. fold out in Hl.
  destruct Hl as [Hl _]. rewrite repeat_length in Hl.
  assert (Hat : forall c, (0 <= c < Z.of_nat M)%Z ->
            (In c [k; k] ->
               aread 0%Z (fst out) c = Z.of_nat (countBelow c [k; k])
               /\ aread 0%Z (snd out) c = Z.of_nat (countUpTo c [k; k]))
            /\ (~ In c [k; k] ->
               aread 0%Z (fst out) c = aread 0%Z (repeat (-1)%Z M) c
               /\ aread 0%Z (snd out) c = aread 0%Z (repeat (-1)%Z M) c)).
  { intros c Hc.
    apply (kernIdentifyCellStartEnd_ranges [k; k] Hs
             (repeat (-1)%Z M) (repeat (-1)%Z M) c);
      rewrite repeat_length; exact Hc. }
  assert (Hkk : aread 0%Z (fst out) k = 0%Z /\ aread 0%Z (snd out) k = 2%Z).
  { destruct (Hat k Hk) as [Hpop _].
    destruct (Hpop ltac:(left; reflexivity)) as [-> ->].
    simpl. rewrite Z.ltb_irrefl, Z.leb_refl. split; reflexivity. }
  split; [|exact Hkk].
  intros c. destruct (Z.ltb_spec c 0) as [Hneg|Hnn].
  - unfold aread. rewrite (proj2 (Z.ltb_lt c 0)) by exact Hneg. lia.
  - destruct (Z.ltb_spec c (Z.of_nat M)) as [Hin|Hout].
    + destruct (Z.eq_dec c k) as [->|Hck]; [lia|].
      destruct (Hat c ltac:(lia)) as [_ Hun].
      destruct Hun as [-> _].
      { intros [Heq|[Heq|[]]]; congruence. }
      unfold aread. rewrite (proj2 (Z.ltb_ge c 0)) by exact Hnn.
      rewrite nth_repeat_lt by lia. lia.
    + unfold aread. rewrite (proj2 (Z.ltb_ge c 0)) by exact Hnn.
      rewrite nth_overflow by lia. lia.
Qed.

(** The candidate cells of a boid at (1,1,1) in the grid of the program: it
    sits in the lower half of cell (11,11,11) on every axis, so the block is
    the cells 10..11 on every axis; its own cell 5577 comes last. *)
Lemma candidateCells_at_1_1_1 :
  candidateCells (gridSideCount initGrid) (gridMinimum initGrid)
    (gridInverseCellWidth initGrid) (gridCellWidth initGrid) (Vec3 1 1 1)
  = [5070; 5071; 5092; 5093; 5554; 5555; 5576; 5577]%Z.
Proof.
  rewrite initGrid_values. unfold candidateCells, upperHalf, fmod. simpl.
  rewrite (float2int_between 11 ((1 - -110) * (1 / 10))) by (try lia; lra).
  rewrite (float2int_between 11 ((1 - -110) / 10)) by (try lia; lra).
  destruct (Rgt_dec (1 - -110 - 10 * 11) (10 / 2)) as [Hgt|_]; [lra|].
  reflexivity.
Qed.

(** C3 -- the code at a populated cell that starts the sorted order: two
    particles in cell 5577 of the 22^3 grid give the range start = 0,
    end = 2; cell 5577 is a candidate cell of the particle at (1,1,1); the
    guard [end > start && start > 0] fails, so the loop runs over no sort
    position of that cell and the scan of any candidate cells leaves all
    accumulators at zero: the two particles are never fetched. *)
Theorem populated_cell_at_start_zero_skipped :
  let out := kernIdentifyCellStartEnd 2 [5577; 5577]%Z
               (repeat (-1)%Z (Z.to_nat 10648)) (repeat (-1)%Z (Z.to_nat 10648)) in
  aread 0%Z (fst out) 5577 = 0%Z
  /\ aread 0%Z (snd out) 5577 = 2%Z
  /\ In 5577%Z (candidateCells (gridSideCount initGrid) (gridMinimum initGrid)
                  (gridInverseCellWidth initGrid) (gridCellWidth initGrid)
                  (Vec3 1 1 1))
  /\ cellSlots (fst out) (snd out) 5577 = []
  /\ forall fetch pos vel1 boid_index cells,
       scanNeighbors fetch pos vel1 (fst out) (snd out) boid_index cells = accum0.
Proof.
  intros out.
  destruct (one_cell_ranges 5577 (Z.to_nat 10648) ltac:(lia)) as (Hall & Hs & He).
  fold out in Hall, Hs, He.
  split; [exact Hs|]. split; [exact He|]. split; [|split].
  - rewrite candidateCells_at_1_1_1. simpl. tauto.
  - apply cellSlots_start_not_positive. rewrite Hs. lia.
  - intros. apply scanNeighbors_no_positive_start. exact Hall.
Qed.

(** ** Two particles in one cell: brute force against the scattered grid *)

Lemma labelParticles_two_in_one_cell (vel1 vel2 : list vec3)
    (indices gridIndices starts ends : list Z) :
  length indices = 2%nat -> length gridIndices = 2%nat ->
  length starts = Z.to_nat 10648 -> length ends = Z.to_nat 10648 ->
  labelParticles initGrid 2
    (MkSim [Vec3 1 1 1; Vec3 2 1 1] vel1 vel2 indices gridIndices starts ends)
  = (repeat (-1)%Z (Z.to_nat 10648), repeat (-1)%Z (Z.to_nat 10648),
     ([0; 1]%Z, [5577; 5577]%Z)).
Proof.
  intros Hi Hg Hs He. rewrite initGrid_values. unfold labelParticles. simpl.
  rewrite !kernResetIntBuffer_repeat by assumption.
  f_equal. unfold kernComputeIndices. rewrite launch_guarded.
  2:{ intros i s' Hge. unfold kernComputeIndices_thread.
      rewrite (proj2 (Nat.ltb_ge i 2)) by lia. reflexivity. }
  destruct indices as [|i0 [|i1 [|]]]; try discriminate.
  destruct gridIndices as [|g0 [|g1 [|]]]; try discriminate.
  unfold kernComputeIndices_thread. simpl.
  rewrite (float2int_between 11 ((1 - -110) * (1 / 10))) by (try lia; lra).
  rewrite (float2int_between 11 ((2 - -110) * (1 / 10))) by (try lia; lra).
  reflexivity.
Qed.

Lemma sort_two_equal_keys {A : Type} (k : Z) (a b : A)
    (keys' : list Z) (vals' : list A) :
  sort_by_key [k; k] [a; b] keys' vals' ->
  keys' = [k; k] /\ (vals' = [a; b] \/ vals' = [b; a]).
Proof.
  intros (Hlen & Hperm & _). simpl in Hperm.
  apply Permutation_length_2_inv in Hperm.
  destruct keys' as [|x [|y [|]]], vals' as [|c [|d [|]]];
    simpl in Hlen, Hperm; try discriminate;
    destruct Hperm as [Heq|Heq]; try discriminate;
    inversion Heq; subst; split; auto.
Qed.

Lemma finishVelocity_no_neighbors (p v : vec3) :
  finishVelocity accum0 p v
  = restrictSpeed (vsub v (vscale p rule1Scale)).
Proof.
  unfold finishVelocity, accum0. simpl. f_equal. vec3_lra.
Qed.

(** The scattered kernel on two particles whose cell has start entry 0. *)
Lemma scattered_two_in_one_cell (g : Grid) (starts ends idx' : list Z)
    (p0 p1 v0 v1 w0 w1 : vec3) :
  (forall c, (aread 0%Z starts c <= 0)%Z) ->
  idx' = [0; 1]%Z \/ idx' = [1; 0]%Z ->
  kernUpdateVelNeighborSearchScattered 2 (gridSideCount g) (gridMinimum g)
    (gridInverseCellWidth g) (gridCellWidth g) starts ends idx'
    [p0; p1] [v0; v1] [w0; w1]
  = [finishVelocity accum0 p0 v0; finishVelocity accum0 p1 v1].
Proof.
  intros Hall Hidx. unfold kernUpdateVelNeighborSearchScattered.
  rewrite launch_guarded.
  2:{ intros i s' Hge. unfold kernUpdateVelNeighborSearchScattered_thread.
      rewrite (proj2 (Nat.ltb_ge i 2)) by lia. reflexivity. }
  unfold kernUpdateVelNeighborSearchScattered_thread.
  destruct Hidx as [->| ->]; simpl;
    rewrite !scanNeighbors_no_positive_start by exact Hall; reflexivity.
Qed.

Lemma coherent_two_in_one_cell (g : Grid) (starts ends : list Z)
    (p0 p1 v0 v1 w0 w1 : vec3) :
  (forall c, (aread 0%Z starts c <= 0)%Z) ->
  kernUpdateVelNeighborSearchCoherent 2 (gridSideCount g) (gridMinimum g)
    (gridInverseCellWidth g) (gridCellWidth g) starts ends
    [p0; p1] [v0; v1] [w0; w1]
  = [finishVelocity accum0 p0 v0; finishVelocity accum0 p1 v1].
Proof.
  intros Hall. unfold kernUpdateVelNeighborSearchCoherent.
  rewrite launch_guarded.
  2:{ intros i s' Hge. unfold kernUpdateVelNeighborSearchCoherent_thread.
      rewrite (proj2 (Nat.ltb_ge i 2)) by lia. reflexivity. }
  unfold kernUpdateVelNeighborSearchCoherent_thread. simpl.
  rewrite !scanNeighbors_no_positive_start by exact Hall. reflexivity.
Qed.

Lemma near_on_x (a b d : R) :
  (a - b) * (a - b) < d * d -> 0 < d ->
  vlength (vsub (Vec3 a 1 1) (Vec3 b 1 1)) < d.
Proof.
  intros Hnear Hd. apply vlength_lt_iff; [exact Hd|].
  unfold vdot, vsub; simpl. lra.
Qed.

(** Brute force on the two particles (1,1,1) and (2,1,1) at rest: particle 0
    is pulled by cohesion and pushed by separation. *)
Lemma bruteForce_two_close :
  computeVelocityChange 2 0 [Vec3 1 1 1; Vec3 2 1 1] [vzero; vzero]
  = Vec3 (-9 / 100) 0 0.
Proof.
  assert (Hc : combinedVelocity 2 0 [Vec3 1 1 1; Vec3 2 1 1] [vzero; vzero]
               = Vec3 (-9 / 100) 0 0).
  { unfold combinedVelocity, kernUpdateVelocityRule1, kernUpdateVelocityRule2,
      kernUpdateVelocityRule3, rule1_iter, rule2_iter, rule3_iter. simpl.
    destruct (Rlt_dec _ rule1Distance) as [_|Hn];
      [|exfalso; apply Hn, near_on_x; unfold rule1Distance; lra].
    destruct (Rlt_dec _ rule2Distance) as [_|Hn];
      [|exfalso; apply Hn, near_on_x; unfold rule2Distance; lra].
    destruct (Rlt_dec _ rule3Distance) as [_|Hn];
      [|exfalso; apply Hn, near_on_x; unfold rule3Distance; lra].
    unfold rule1Scale, rule2Scale, rule3Scale. simpl.
    change (0 + 1)%Z with 1%Z. vec3_lra. }
  unfold computeVelocityChange. rewrite Hc. apply restrictSpeed_slow.
  apply vlength_le_iff; unfold maxSpeed, vdot; simpl; lra.
Qed.

Lemma grid_two_close :
  finishVelocity accum0 (Vec3 1 1 1) vzero = Vec3 (-1 / 100) (-1 / 100) (-1 / 100).
Proof.
  rewrite finishVelocity_no_neighbors.
  replace (vsub vzero (vscale (Vec3 1 1 1) rule1Scale))
    with (Vec3 (-1 / 100) (-1 / 100) (-1 / 100))
    by (unfold rule1Scale; vec3_lra).
  apply restrictSpeed_slow.
  apply vlength_le_iff; unfold maxSpeed, vdot; simpl; lra.
Qed.

Lemma twoCloseBoids_labels :
  labelParticles initGrid 2 twoCloseBoids
  = (repeat (-1)%Z (Z.to_nat 10648), repeat (-1)%Z (Z.to_nat 10648),
     ([0; 1]%Z, [5577; 5577]%Z)).
Proof.
  unfold twoCloseBoids. apply labelParticles_two_in_one_cell;
    try reflexivity; apply repeat_length.
Qed.

(** C1 -- the code on one state: for the two particles (1,1,1) and (2,1,1)
    at rest, the brute-force pass gives particle (1,1,1) the velocity
    (-9/100, 0, 0), while the scattered-grid pass and the coherent-grid pass,
    for every result the sorts may give, give it
    (-1/100, -1/100, -1/100): the cell of both particles has start entry 0
    and is skipped. *)
Theorem grid_strategies_differ_from_brute_force :
  let s := twoCloseBoids in
  let keys := snd (snd (labelParticles initGrid 2 s)) in
  let indices := fst (snd (labelParticles initGrid 2 s)) in
  nth 0 (kernUpdateVelocityBruteForce 2 (dev_pos s) (dev_vel1 s) (dev_vel2 s)) vzero
  = Vec3 (-9 / 100) 0 0
  /\ (forall gridIndices' arrayIndices',
        sort_by_key keys indices gridIndices' arrayIndices' ->
        nth 0 (snd (scatteredVelocities initGrid 2 s gridIndices' arrayIndices')) vzero
        = Vec3 (-1 / 100) (-1 / 100) (-1 / 100))
  /\ (forall gridIndices' arrayIndices' posKeys' pos' velKeys' vel1',
        coherentSorts initGrid 2 s gridIndices' arrayIndices'
                      posKeys' pos' velKeys' vel1' ->
        forall i, nth i pos' vzero = Vec3 1 1 1 ->
        nth i (snd (coherentVelocities initGrid 2 s gridIndices' pos' vel1')) vzero
        = Vec3 (-1 / 100) (-1 / 100) (-1 / 100)).
Proof.
  intros s keys indices. subst keys indices s.
  destruct (one_cell_ranges 5577 (Z.to_nat 10648) ltac:(lia)) as (Hall & _ & _).
  split; [|split].
  - destruct (kernUpdateVelocityBruteForce_nth 2 (dev_pos twoCloseBoids)
                (dev_vel1 twoCloseBoids) (dev_vel2 twoCloseBoids)
                ltac:(simpl; lia)) as [_ Hnth].
    rewrite Hnth. exact bruteForce_two_close.
  - intros gridIndices' arrayIndices'. rewrite twoCloseBoids_labels.
    cbn [fst snd]. intros Hsort.
    apply sort_two_equal_keys in Hsort as [-> Hidx].
    unfold scatteredVelocities. rewrite twoCloseBoids_labels.
    destruct (kernIdentifyCellStartEnd 2 [5577; 5577]%Z _ _) as [starts ends].
    cbn [fst snd] in *. unfold twoCloseBoids; cbn [dev_pos dev_vel1 dev_vel2].
    rewrite (scattered_two_in_one_cell initGrid starts ends arrayIndices'
               _ _ _ _ _ _ Hall Hidx).
    exact grid_two_close.
  - intros gridIndices' arrayIndices' posKeys' pos' velKeys' vel1'.
    unfold coherentSorts. rewrite twoCloseBoids_labels. cbn [fst snd].
    unfold twoCloseBoids at 1 2; cbn [dev_pos dev_vel1].
    intros (Hsort & Hpos & Hvel) i Hi.
    apply sort_two_equal_keys in Hsort as [-> _].
    apply sort_two_equal_keys in Hpos as [_ Hpos].
    apply sort_two_equal_keys in Hvel as [_ Hvel].
    assert (Hvel' : vel1' = [vzero; vzero]) by (destruct Hvel; assumption).
    subst vel1'.
    unfold coherentVelocities. rewrite twoCloseBoids_labels.
    destruct (kernIdentifyCellStartEnd 2 [5577; 5577]%Z _ _) as [starts ends].
    cbn [fst snd] in *. unfold twoCloseBoids; cbn [dev_vel2].
    destruct Hpos as [-> | ->];
      rewrite (coherent_two_in_one_cell initGrid starts ends
                 _ _ _ _ _ _ Hall);
      destruct i as [|[|[|i]]]; cbn [nth] in Hi |- *;
      try exact grid_two_close;
      apply (f_equal vx) in Hi; simpl in Hi; lra.
Qed.

Lemma grid_strategies_differ_from_brute_force_witness :
  nth 0 (snd (scatteredVelocities initGrid 2 twoCloseBoids
                [5577; 5577]%Z [0; 1]%Z)) vzero
  = Vec3 (-1 / 100) (-1 / 100) (-1 / 100)
  /\ nth 0 (kernUpdateVelocityBruteForce 2 (dev_pos twoCloseBoids)
              (dev_vel1 twoCloseBoids) (dev_vel2 twoCloseBoids)) vzero
     = Vec3 (-9 / 100) 0 0.
Proof.
  pose proof grid_strategies_differ_from_brute_force as H. cbv zeta in H.
  destruct H as (Hbrute & Hscattered & _).
  split; [|exact Hbrute].
  apply Hscattered. rewrite twoCloseBoids_labels. cbn [fst snd].
  split; [reflexivity|]. split; [apply Permutation_refl|].
  repeat constructor. lia.
Defined.

(** ** The three sorts of the coherent step *)

Lemma sort_by_key_swap_ties {A : Type} (k : Z) (a b : A) :
  sort_by_key [k; k] [a; b] [k; k] [a; b]
  /\ sort_by_key [k; k] [a; b] [k; k] [b; a].
Proof.
  assert (Hs : Sorted Z.le [k; k]) by (repeat constructor; lia).
  split; (split; [reflexivity|]); (split; [|exact Hs]); simpl.
  - apply Permutation_refl.
  - apply perm_swap.
Qed.

(** C8 -- the code on one state: for two particles that share cell 5577 and
    have different velocities, the three sorts of the coherent step may
    return the array indices and the positions in the order (0, 1) and the
    velocities in the order (1, 0); no single permutation of the particle
    slots gives all three orders. *)
Theorem coherent_sorts_need_not_agree :
  let s := twoMovingBoids in
  exists gridIndices' arrayIndices' posKeys' pos' velKeys' vel1',
    coherentSorts initGrid 2 s gridIndices' arrayIndices'
                  posKeys' pos' velKeys' vel1'
    /\ arrayIndices' = [0; 1]%Z
    /\ pos' = [Vec3 1 1 1; Vec3 2 1 1]
    /\ vel1' = [Vec3 0 1 0; Vec3 1 0 0]
    /\ ~ exists pi, alignedBy pi s arrayIndices' pos' vel1'.
Proof.
  intros s.
  exists [5577; 5577]%Z, [0; 1]%Z, [5577; 5577]%Z, [Vec3 1 1 1; Vec3 2 1 1],
         [5577; 5577]%Z, [Vec3 0 1 0; Vec3 1 0 0].
  split; [|split; [reflexivity|split; [reflexivity|split; [reflexivity|]]]].
  - unfold coherentSorts. subst s. unfold twoMovingBoids.
    rewrite labelParticles_two_in_one_cell
      by (try reflexivity; apply repeat_length).
    cbn [fst snd dev_pos dev_vel1].
    split; [|split].
    + apply (sort_by_key_swap_ties 5577 0%Z 1%Z).
    + apply (sort_by_key_swap_ties 5577 (Vec3 1 1 1) (Vec3 2 1 1)).
    + apply (sort_by_key_swap_ties 5577 (Vec3 1 0 0) (Vec3 0 1 0)).
  - intros (pi & _ & Hidx & _ & Hvel).
    destruct pi as [|a [|b [|]]]; simpl in Hidx; try discriminate.
    inversion Hidx as [[Ha Hb]].
    assert (a = 0%nat) by lia. assert (b = 1%nat) by lia. subst a b.
    subst s. simpl in Hvel. inversion Hvel as [[H0 H1]]. lra.
Qed.

(** ** The sort contract can always be met *)

Lemma insert_by_key_perm {A : Type} (k : Z) (v : A) (l : list (Z * A)) :
  Permutation ((k, v) :: l) (insert_by_key k v l).
Proof.
  induction l as [|[k' v'] l IH]; simpl.
  - apply Permutation_refl.
  - destruct (k <=? k')%Z.
    + apply Permutation_refl.
    + eapply perm_trans; [apply perm_swap | apply perm_skip, IH].
Qed.

Lemma insert_by_key_sorted {A : Type} (k : Z) (v : A) (l : list (Z * A)) :
  Sorted Z.le (map fst l) -> Sorted Z.le (map fst (insert_by_key k v l)).
Proof.
  induction l as [|[k' v'] l IH]; simpl; intros Hs.
  - repeat constructor.
  - apply Sorted_inv in Hs as [Hs Hhd].
    destruct (Z.leb_spec k k') as [Hle|Hgt]; simpl.
    + constructor; [constructor; assumption | constructor; exact Hle].
    + constructor; [apply IH; exact Hs|].
      destruct l as [|[k'' v''] l]; simpl.
      * constructor. lia.
      * destruct (k <=? k'')%Z; simpl; constructor; [lia|].
        inversion Hhd; assumption.
Qed.

Lemma combine_fst_snd {A B : Type} (l : list (A * B)) :
  combine (map fst l) (map snd l) = l.
Proof.
  induction l as [|[a b] l IH]; simpl; [reflexivity|]. rewrite IH. reflexivity.
Qed.

Lemma stable_sort_by_key_sorts {A : Type} (keys : list Z) (vals : list A) :
  sort_by_key keys vals (fst (stable_sort_by_key keys vals))
                        (snd (stable_sort_by_key keys vals)).
Proof.
  unfold sort_by_key, stable_sort_by_key. simpl.
  split; [rewrite !length_map; reflexivity|].
  rewrite combine_fst_snd.
  generalize (combine keys vals) as l. intros l. split.
  - induction l as [|[k v] l IH]; simpl; [apply Permutation_refl|].
    eapply perm_trans; [apply perm_skip, IH | apply insert_by_key_perm].
  - induction l as [|[k v] l IH]; simpl; [constructor|].
    apply insert_by_key_sorted. exact IH.
Qed.

(** The keys and values of [Boids::unitTest]. *)
Example stable_sort_by_key_unitTest :
  stable_sort_by_key [0; 1; 0; 3; 0; 2; 2; 0; 5; 6]%Z
                     [0; 1; 2; 3; 4; 5; 6; 7; 8; 9]%Z
  = ([0; 0; 0; 0; 1; 2; 2; 3; 5; 6]%Z, [0; 2; 4; 7; 1; 5; 6; 3; 8; 9]%Z).
Proof. reflexivity. Qed.

(** * Further properties of the kernels *)

(** ** Stored velocities never exceed the speed limit *)




(** ** A particle without neighbors *)




(** ** The integrator away from the faces of the scene *)

Lemma component_bound (v : vec3) (m : R) :
  0 <= m -> vlength v <= m ->
  (- m <= vx v <= m) /\ (- m <= vy v <= m) /\ (- m <= vz v <= m).
Proof.
  intros Hm Hlen. apply vlength_le_iff in Hlen; [|exact Hm].
  unfold vdot in Hlen. repeat split; nra.
Qed.

Lemma kernUpdatePos_length (N : nat) (dt : R) (pos vel : list vec3) :
  (N <= length pos)%nat ->
  length (kernUpdatePos N dt pos vel) = length pos
  /\ forall i, (N <= i)%nat ->
       nth i (kernUpdatePos N dt pos vel) vzero = nth i pos vzero.
Proof.
  intros HN. rewrite kernUpdatePos_fold.
  destruct (fold_own_slot (fun i p => integrate dt p (nth i vel vzero)) vzero N pos HN)
    as [Hlen Hnth].
  split; [exact Hlen|]. intros i Hi. rewrite Hnth.
  rewrite (proj2 (Nat.ltb_ge i N)) by exact Hi. reflexivity.
Qed.

(** X3 -- a particle whose speed is within maxSpeed and whose coordinates
    are at least maxSpeed * dt away from both faces of the scene on every
    axis is moved by velocity * dt and not wrapped; entries of the position
    buffer from N on are not touched. *)
Theorem kernUpdatePos_interior
    (N : nat) (dt : R) (pos vel : list vec3) (index : nat) :
  (index < N)%nat -> (N <= length pos)%nat -> 0 <= dt ->
  vlength (nth index vel vzero) <= maxSpeed ->
  let p := nth index pos vzero in
  - scene_scale + maxSpeed * dt <= vx p <= scene_scale - maxSpeed * dt ->
  - scene_scale + maxSpeed * dt <= vy p <= scene_scale - maxSpeed * dt ->
  - scene_scale + maxSpeed * dt <= vz p <= scene_scale - maxSpeed * dt ->
  nth index (kernUpdatePos N dt pos vel) vzero
  = vadd p (vscale (nth index vel vzero) dt)
  /\ length (kernUpdatePos N dt pos vel) = length pos
  /\ forall j, (N <= j)%nat ->
       nth j (kernUpdatePos N dt pos vel) vzero = nth j pos vzero.
Proof.
  intros Hi HN Hdt Hv p Hx Hy Hz.
  split; [|apply kernUpdatePos_length; exact HN].
  rewrite kernUpdatePos_nth by assumption. fold p.
  destruct (component_bound (nth index vel vzero) maxSpeed
              ltac:(unfold maxSpeed; lra) Hv) as (Hvx & Hvy & Hvz).
  destruct (integrate_coords dt p (nth index vel vzero)) as (Ex & Ey & Ez).
  unfold maxSpeed in *.
  apply vec3_ext; simpl; rewrite ?Ex, ?Ey, ?Ez; apply wrap_inside; nra.
Qed.

Lemma kernUpdatePos_interior_witness :
  nth 0 (kernUpdatePos 1 2 [Vec3 50 0 0] [Vec3 1 0 0]) vzero
  = vadd (Vec3 50 0 0) (vscale (Vec3 1 0 0) 2).
Proof.
  refine (proj1 (kernUpdatePos_interior 1 2 [Vec3 50 0 0] [Vec3 1 0 0] 0
                   _ _ _ _ _ _ _)); simpl; unfold scene_scale, maxSpeed;
    try lia; try lra.
  apply vlength_le_iff; unfold vdot; simpl; lra.
Defined.

(** ** One brute-force step and many *)





(** ** The device run against the run on arrays *)

Lemma device_step_represents (dt : R) (st : Device.state) (N : nat) (s : Sim) :
  represents st N s ->
  represents (Device.stepSimulationNaive dt st) N (stepSimulationNaive N dt s)
  /\ Device.dev_pos (Device.stepSimulationNaive dt st) = Device.dev_pos st
  /\ Device.dev_vel1 (Device.stepSimulationNaive dt st) = Device.dev_vel2 st
  /\ Device.dev_vel2 (Device.stepSimulationNaive dt st) = Device.dev_vel1 st
  /\ forall p, p <> Device.dev_pos st -> p <> Device.dev_vel2 st ->
       Device.heap (Device.stepSimulationNaive dt st) !! p = Device.heap st !! p.
Proof.
  intros (HN & HP & HV1 & HV2 & Hpv1 & Hpv2 & Hv12).
  set (vel2' := kernUpdateVelocityBruteForce N (dev_pos s) (dev_vel1 s) (dev_vel2 s)).
  assert (Hev : Device.kernUpdateVelocityBruteForce N (Device.dev_pos st)
                  (Device.dev_vel1 st) (Device.dev_vel2 st) (Device.heap st)
                = <[Device.dev_vel2 st := vel2']> (Device.heap st)).
  { rewrite (device_bruteForce_arrays N _ _ _ _ (dev_vel2 s) HV2 Hpv2 Hv12).
    unfold Device.deref. rewrite HP, HV1. reflexivity. }
  assert (Hfin : Device.kernUpdatePos N dt (Device.dev_pos st) (Device.dev_vel2 st)
                   (<[Device.dev_vel2 st := vel2']> (Device.heap st))
                 = <[Device.dev_pos st := kernUpdatePos N dt (dev_pos s) vel2']>
                     (<[Device.dev_vel2 st := vel2']> (Device.heap st))).
  { rewrite (device_updatePos_arrays N dt _ _ _ (dev_pos s)); [|
      rewrite lookup_insert_ne by congruence; exact HP | exact Hpv2].
    unfold Device.deref. rewrite lookup_insert_eq. reflexivity. }
  unfold Device.stepSimulationNaive, stepSimulationNaive, represents.
  cbn [Device.heap Device.numObjects Device.dev_pos Device.dev_vel1 Device.dev_vel2
       dev_pos dev_vel1 dev_vel2].
  rewrite HN, Hev, Hfin. fold vel2'.
  repeat split; try congruence.
  - apply lookup_insert_eq.
  - rewrite lookup_insert_ne by congruence. apply lookup_insert_eq.
  - rewrite !lookup_insert_ne by congruence. exact HV1.
  - intros p Hp1 Hp2. rewrite !lookup_insert_ne by congruence. reflexivity.
Qed.

(** X5 -- when the three vector buffers are behind three different
    pointers, one brute-force step on the device leaves in them exactly what
    the step on separate arrays computes, exchanges the two velocity
    pointers, keeps the position pointer, and touches no other buffer of
    the heap. *)
Theorem device_step_is_array_step
    (dt : R) (st : Device.state) (N : nat) (s : Sim) :
  represents st N s ->
  let st' := Device.stepSimulationNaive dt st in
  let s' := stepSimulationNaive N dt s in
  Device.heap st' !! Device.dev_pos st' = Some (dev_pos s')
  /\ Device.heap st' !! Device.dev_vel1 st' = Some (dev_vel1 s')
  /\ Device.heap st' !! Device.dev_vel2 st' = Some (dev_vel2 s')
  /\ Device.dev_pos st' = Device.dev_pos st
  /\ Device.dev_vel1 st' = Device.dev_vel2 st
  /\ Device.dev_vel2 st' = Device.dev_vel1 st
  /\ forall p, p <> Device.dev_pos st -> p <> Device.dev_vel2 st ->
       Device.heap st' !! p = Device.heap st !! p.
Proof.
  intros Hrep st' s'.
  destruct (device_step_represents dt st N s Hrep)
    as ((_ & HP & HV1 & HV2 & _) & Hp & Hv1 & Hv2 & Hframe).
  repeat split; assumption.
Qed.

Lemma device_step_is_array_step_witness :
  let st := Device.MkState
              (<[0%nat := [Vec3 1 0 0]]>
                 (<[1%nat := [Vec3 0 1 0]]> (<[2%nat := [vzero]]> ∅)))
              1%nat 0%nat 1%nat 2%nat in
  let s := MkSim [Vec3 1 0 0] [Vec3 0 1 0] [vzero] [] [] [] [] in
  Device.heap (Device.stepSimulationNaive 1 st) !! 2%nat
  = Some (dev_vel1 (stepSimulationNaive 1 1 s)).
Proof.
  intros st s.
  assert (Hrep : represents st 1 s).
  { unfold represents. repeat split; simpl; try reflexivity; lia. }
  exact (proj1 (proj2 (device_step_is_array_step 1 st 1%nat s Hrep))).
Defined.

(** X6 -- any number of brute-force steps on the device computes what the
    same number of steps on separate arrays computes; the position pointer
    never changes, and the two velocity pointers are the original ones after
    an even number of steps and exchanged after an odd number. *)
Theorem device_run_ping_pong
    (dt : R) (st : Device.state) (N : nat) (s : Sim) (n : nat) :
  represents st N s ->
  let st' := Nat.iter n (Device.stepSimulationNaive dt) st in
  let s' := Nat.iter n (stepSimulationNaive N dt) s in
  represents st' N s'
  /\ Device.dev_pos st' = Device.dev_pos st
  /\ Device.dev_vel1 st'
     = (if Nat.even n then Device.dev_vel1 st else Device.dev_vel2 st)
  /\ Device.dev_vel2 st'
     = (if Nat.even n then Device.dev_vel2 st else Device.dev_vel1 st).
Proof.
  intros Hrep. induction n as [|n IH]; cbv zeta.
  - simpl. auto.
  - rewrite !Nat.iter_succ. cbv zeta in IH.
    destruct IH as (Hr & Hp & Hv1 & Hv2).
    destruct (device_step_represents dt _ N _ Hr) as (Hr' & Hp' & Hv1' & Hv2' & _).
    split; [exact Hr'|]. rewrite Hp', Hv1', Hv2', Hp, Hv1, Hv2.
    rewrite Nat.even_succ, <- Nat.negb_even.
    destruct (Nat.even n); simpl; auto.
Qed.

Lemma device_run_ping_pong_witness :
  let st := Device.MkState
              (<[0%nat := [Vec3 1 0 0]]>
                 (<[1%nat := [Vec3 0 1 0]]> (<[2%nat := [vzero]]> ∅)))
              1%nat 0%nat 1%nat 2%nat in
  Device.dev_vel1 (Nat.iter 4 (Device.stepSimulationNaive 1) st) = 1%nat
  /\ Device.dev_vel1 (Nat.iter 3 (Device.stepSimulationNaive 1) st) = 2%nat.
Proof.
  intros st.
  assert (Hrep : represents st 1
                   (MkSim [Vec3 1 0 0] [Vec3 0 1 0] [vzero] [] [] [] [])).
  { unfold represents. repeat split; simpl; try reflexivity; lia. }
  split.
  - exact (proj1 (proj2 (proj2 (device_run_ping_pong 1 st 1%nat _ 4 Hrep)))).
  - exact (proj1 (proj2 (proj2 (device_run_ping_pong 1 st 1%nat _ 3 Hrep)))).
Defined.

(** ** Cell ids *)

(** X7 -- on a grid whose cell count fits an [int], the linear cell id
    determines the three cell coordinates: x = id mod side,
    y = (id / side) mod side, z = id / side^2; so different cells of the grid
    never share an id. *)
Theorem gridIndex3Dto1D_decodes (x y z x' y' z' side : Z) :
  (0 <= x < side)%Z -> (0 <= y < side)%Z -> (0 <= z < side)%Z ->
  (0 <= x' < side)%Z -> (0 <= y' < side)%Z -> (0 <= z' < side)%Z ->
  (side * side * side <= INT_MAX)%Z ->
  let id := gridIndex3Dto1D x y z side in
  (id mod side = x)%Z
  /\ ((id / side) mod side = y)%Z
  /\ (id / (side * side) = z)%Z
  /\ (id = gridIndex3Dto1D x' y' z' side -> x = x' /\ y = y' /\ z = z').
Proof.
  intros Hx Hy Hz Hx' Hy' Hz' Hfit id.
  assert (Hdec : forall a b c, (0 <= a < side)%Z -> (0 <= b < side)%Z ->
            (0 <= c < side)%Z ->
            let n := gridIndex3Dto1D a b c side in
            (n mod side = a /\ (n / side) mod side = b /\ n / (side * side) = c)%Z).
  { intros a b c Ha Hb Hc n. subst n.
    destruct (gridIndex3Dto1D_exact a b c side Ha Hb Hc Hfit) as [-> _].
    assert (Hs : (0 < side)%Z) by lia.
    replace (a + b * side + c * side * side)%Z
      with (a + (b + c * side) * side)%Z by ring.
    rewrite Z.mod_add, Z.div_add by lia.
    rewrite Z.mod_small, Z.div_small by lia.
    rewrite Z.add_0_l, Z.mod_add, Z.mod_small by lia.
    repeat split; try reflexivity.
    replace (a + (b + c * side) * side)%Z
      with (a + b * side + c * (side * side))%Z by ring.
    rewrite Z.div_add by nia.
    rewrite Z.div_small; [lia | nia]. }
  destruct (Hdec x y z Hx Hy Hz) as (D1 & D2 & D3).
  fold id in D1, D2, D3.
  split; [exact D1|]. split; [exact D2|]. split; [exact D3|].
  intros Heq. destruct (Hdec x' y' z' Hx' Hy' Hz') as (E1 & E2 & E3).
  rewrite <- Heq in E1, E2, E3. repeat split; congruence.
Qed.

Lemma gridIndex3Dto1D_decodes_witness :
  ((gridIndex3Dto1D 11 11 11 22) mod 22 = 11)%Z
  /\ (gridIndex3Dto1D 11 11 11 22 / (22 * 22) = 11)%Z.
Proof.
  pose proof (gridIndex3Dto1D_decodes 11 11 11 0 0 0 22
                ltac:(lia) ltac:(lia) ltac:(lia) ltac:(lia) ltac:(lia) ltac:(lia)
                ltac:(unfold INT_MAX; lia)) as H.
  cbv zeta in H. destruct H as (H1 & _ & H3 & _). split; assumption.
Defined.

Lemma inScene_coordinate (c : R) :
  - scene_scale <= c <= scene_scale ->
  (1 <= cellCoordinate (-110) (1 / 10) c <= 21)%Z.
Proof.
  unfold scene_scale, cellCoordinate. intros Hc.
  destruct (cell_coordinate_range c (-110) 10 22 ltac:(lra) ltac:(simpl; lra))
    as [-> Hr].
  split; [|lia]. apply Zfloor_lub. simpl. lra.
Qed.

(** X8 -- with the grid that initSimulation computes, every particle inside
    the scene cube is labelled with cell coordinates between 1 and 21 on
    every axis and with a cell id in [0, gridCellCount): the id indexes the
    two range buffers within their bounds. *)
Theorem kernComputeIndices_in_scene
    (N : nat) (pos : list vec3) (indices gridIndices : list Z) (index : nat) :
  (index < N)%nat -> (N <= length indices)%nat -> (N <= length gridIndices)%nat ->
  inScene (nth index pos vzero) ->
  let out := kernComputeIndices N (gridSideCount initGrid) (gridMinimum initGrid)
               (gridInverseCellWidth initGrid) pos indices gridIndices in
  nth index (snd out) 0%Z
  = cellOf (gridSideCount initGrid) (gridMinimum initGrid)
           (gridInverseCellWidth initGrid) (nth index pos vzero)
  /\ (0 <= nth index (snd out) 0 < gridCellCount initGrid)%Z.
Proof.
  intros Hi Hl1 Hl2 (Hx & Hy & Hz) out.
  destruct (kernComputeIndices_nth N (gridSideCount initGrid) (gridMinimum initGrid)
              (gridInverseCellWidth initGrid) pos indices gridIndices index
              Hi Hl1 Hl2) as [_ Hcell].
  fold out in Hcell. split; [exact Hcell|]. rewrite Hcell.
  rewrite initGrid_values. simpl.
  pose proof (inScene_coordinate _ Hx) as Cx.
  pose proof (inScene_coordinate _ Hy) as Cy.
  pose proof (inScene_coordinate _ Hz) as Cz.
  unfold cellCoordinate in Cx, Cy, Cz.
  apply (gridIndex3Dto1D_exact _ _ _ 22); try lia. unfold INT_MAX. lia.
Qed.

Lemma kernComputeIndices_in_scene_witness :
  (0 <= nth 0 (snd (kernComputeIndices 1 (gridSideCount initGrid)
                      (gridMinimum initGrid) (gridInverseCellWidth initGrid)
                      [Vec3 100 (-100) 0] [0%Z] [0%Z])) 0
   < gridCellCount initGrid)%Z.
Proof.
  refine (proj2 (kernComputeIndices_in_scene 1 [Vec3 100 (-100) 0] [0%Z] [0%Z] 0
                   _ _ _ _)); simpl; try lia.
  unfold inScene, scene_scale; simpl; lra.
Defined.

(** X9 -- the conversion to [int] truncates toward zero: a coordinate less
    than one cell width below gridMin gets cell coordinate 0, the coordinate
    of the first layer of cells, although its floor is -1. *)
Theorem cellCoordinate_below_grid (gridMinC cellWidth c : R) :
  0 < cellWidth -> gridMinC - cellWidth < c < gridMinC ->
  cellCoordinate gridMinC (1 / cellWidth) c = 0%Z
  /\ Zfloor ((c - gridMinC) * (1 / cellWidth)) = (-1)%Z.
Proof.
  intros Hw [Hlo Hhi].
  assert (Hinv : 0 < 1 / cellWidth) by (apply Rdiv_lt_0_compat; lra).
  assert (Hk : cellWidth * (1 / cellWidth) = 1) by (field; lra).
  assert (Hneg : (c - gridMinC) * (1 / cellWidth) < 0) by nra.
  assert (Hgt : -1 < (c - gridMinC) * (1 / cellWidth)) by nra.
  split.
  - unfold cellCoordinate, float2int.
    destruct (Rle_dec 0 _) as [Hge|_]; [lra|].
    apply Zceil_eq. simpl. lra.
  - apply Zfloor_eq. simpl. lra.
Qed.

Lemma cellCoordinate_below_grid_witness :
  cellCoordinate (-110) (1 / 10) (-113) = 0%Z.
Proof.
  apply (cellCoordinate_below_grid (-110) 10 (-113)); lra.
Defined.

(** ** Resetting a buffer *)

Lemma kernResetIntBuffer_nth (N : nat) (intBuffer : list Z) (value : Z) :
  (N <= length intBuffer)%nat ->
  length (kernResetIntBuffer N intBuffer value) = length intBuffer
  /\ forall i d, nth i (kernResetIntBuffer N intBuffer value) d
                 = if (i <? N)%nat then value else nth i intBuffer d.
Proof.
  intros HN. unfold kernResetIntBuffer. rewrite launch_guarded.
  2:{ intros i s' Hge. unfold kernResetIntBuffer_thread.
      rewrite (proj2 (Nat.ltb_ge i N)) by lia. reflexivity. }
  erewrite fold_left_ext_in.
  2:{ intros acc i Hin. apply in_seq in Hin. unfold kernResetIntBuffer_thread.
      rewrite (proj2 (Nat.ltb_lt i N)) by lia. reflexivity. }
  split.
  - apply (fold_own_slot (fun _ _ => value) 0%Z N intBuffer HN).
  - intros i d.
    apply (fold_own_slot (fun _ _ => value) d N intBuffer HN).
Qed.

(** X10 -- resetting the first N entries of a buffer sets exactly those
    entries to the value and leaves the length and every later entry as they
    were; a second reset overrides the first, so resetting twice with the
    same value is resetting once. *)
Theorem kernResetIntBuffer_prefix (N : nat) (intBuffer : list Z) (value value' : Z) :
  (N <= length intBuffer)%nat ->
  length (kernResetIntBuffer N intBuffer value) = length intBuffer
  /\ (forall i, (i < N)%nat ->
        nth i (kernResetIntBuffer N intBuffer value) 0%Z = value)
  /\ (forall i, (N <= i)%nat ->
        nth i (kernResetIntBuffer N intBuffer value) 0%Z = nth i intBuffer 0%Z)
  /\ kernResetIntBuffer N (kernResetIntBuffer N intBuffer value') value
     = kernResetIntBuffer N intBuffer value.
Proof.
  intros HN. destruct (kernResetIntBuffer_nth N intBuffer value HN) as [Hlen Hnth].
  destruct (kernResetIntBuffer_nth N intBuffer value' HN) as [Hlen' Hnth'].
  destruct (kernResetIntBuffer_nth N (kernResetIntBuffer N intBuffer value') value
              ltac:(lia)) as [Hlen2 Hnth2].
  split; [exact Hlen|]. split; [|split].
  - intros i Hi. rewrite Hnth, (proj2 (Nat.ltb_lt i N)) by exact Hi. reflexivity.
  - intros i Hi. rewrite Hnth, (proj2 (Nat.ltb_ge i N)) by exact Hi. reflexivity.
  - apply (nth_ext _ _ 0%Z 0%Z); [lia|].
    intros i _. rewrite Hnth2, Hnth, Hnth'. destruct (i <? N)%nat; reflexivity.
Qed.

Lemma kernResetIntBuffer_prefix_witness :
  kernResetIntBuffer 2 (kernResetIntBuffer 2 [7; 8; 9]%Z 5) (-1)
  = kernResetIntBuffer 2 [7; 8; 9]%Z (-1).
Proof.
  apply (kernResetIntBuffer_prefix 2 [7; 8; 9]%Z (-1) 5). simpl. lia.
Defined.

Example kernResetIntBuffer_run :
  kernResetIntBuffer 2 [7; 8; 9]%Z (-1) = [-1; -1; 9]%Z.
Proof. reflexivity. Qed.

(** ** More on the cell ranges *)

Lemma aread_ext (a b : list Z) :
  length a = length b ->
  (forall c, (0 <= c < Z.of_nat (length a))%Z -> aread 0%Z a c = aread 0%Z b c) ->
  a = b.
Proof.
  intros Hlen Hrd. apply (nth_ext _ _ 0%Z 0%Z); [exact Hlen|].
  intros i Hi. specialize (Hrd (Z.of_nat i) ltac:(lia)).
  unfold aread in Hrd. rewrite (proj2 (Z.ltb_ge (Z.of_nat i) 0)) in Hrd by lia.
  rewrite Nat2Z.id in Hrd. exact Hrd.
Qed.

(** X11 -- for ascending keys, the range that the builder leaves for a
    populated cell c holds exactly the sort positions of the particles of
    that cell: start[c] <= j < end[c] if and only if key[j] = c. *)
Theorem kernIdentifyCellStartEnd_positions
    (keys starts ends : list Z) (c : Z) (j : nat) :
  Sorted Z.le keys -> In c keys ->
  (0 <= c < Z.of_nat (length starts))%Z ->
  (0 <= c < Z.of_nat (length ends))%Z ->
  (j < length keys)%nat ->
  let out := kernIdentifyCellStartEnd (length keys) keys starts ends in
  ((aread 0 (fst out) c <= Z.of_nat j < aread 0 (snd out) c)%Z
   <-> nth j keys 0%Z = c).
Proof.
  intros Hsorted Hin Hcs Hce Hj out.
  assert (Hs : StronglySorted Z.le keys).
  { apply Sorted_StronglySorted; [|exact Hsorted].
    intros x y z Hxy Hyz. exact (Z.le_trans x y z Hxy Hyz). }
  destruct (kernIdentifyCellStartEnd_ranges keys Hs starts ends c Hcs Hce)
    as [Hpop _].
  destruct (Hpop Hin) as [Hstart Hend]. fold out in Hstart, Hend.
  rewrite Hstart, Hend.
  rewrite (sorted_cell_interval c keys Hs j Hj). lia.
Qed.

Lemma kernIdentifyCellStartEnd_positions_witness :
  let out := kernIdentifyCellStartEnd 3 [2; 2; 5]%Z
               (repeat (-1)%Z 8) (repeat (-1)%Z 8) in
  (aread 0 (fst out) 2 <= 1 < aread 0 (snd out) 2)%Z.
Proof.
  intros out.
  apply (kernIdentifyCellStartEnd_positions [2; 2; 5]%Z
           (repeat (-1)%Z 8) (repeat (-1)%Z 8) 2%Z 1%nat);
    try (simpl; lia); try (repeat constructor; lia).
Defined.

Lemma kernIdentifyCellStartEnd_untouched (keys starts ends : list Z) (c : Z) :
  ~ In c keys ->
  let out := kernIdentifyCellStartEnd (length keys) keys starts ends in
  ((0 <= c < Z.of_nat (length starts))%Z ->
     aread 0%Z (fst out) c = aread 0%Z starts c)
  /\ ((0 <= c < Z.of_nat (length ends))%Z ->
     aread 0%Z (snd out) c = aread 0%Z ends c).
Proof.
  intros Hnot out. subst out.
  rewrite kernIdentifyCellStartEnd_folds. simpl.
  destruct (fold_conditional_writes (startsRun keys) (fun i => nth i keys 0%Z)
              Z.of_nat (length keys) starts) as [_ Hs].
  destruct (fold_conditional_writes (endsRun (length keys) keys)
              (fun i => nth i keys 0%Z) (fun i => (Z.of_nat i + 1)%Z)
              (length keys) ends) as [_ He].
  assert (Hno : forall j, (j < length keys)%nat -> nth j keys 0%Z <> c).
  { intros j Hj Heq. apply Hnot. rewrite <- Heq. apply nth_In. exact Hj. }
  split; intros Hc.
  - rewrite (Hs c Hc), last_writer_none by exact Hno. reflexivity.
  - rewrite (He c Hc), last_writer_none by exact Hno. reflexivity.
Qed.

(** X12 -- after the two range buffers are reset to -1 and the builder has
    run, in whatever order the keys are, a cell that no key names still has
    start = end = -1, and the neighbor loop runs over no sort position for
    it. *)
Theorem empty_cell_contributes_nothing (keys starts ends : list Z) (c : Z) :
  (0 <= c < Z.of_nat (length starts))%Z ->
  (0 <= c < Z.of_nat (length ends))%Z ->
  ~ In c keys ->
  let out := kernIdentifyCellStartEnd (length keys) keys
               (kernResetIntBuffer (length starts) starts (-1))
               (kernResetIntBuffer (length ends) ends (-1)) in
  aread 0%Z (fst out) c = (-1)%Z
  /\ aread 0%Z (snd out) c = (-1)%Z
  /\ cellSlots (fst out) (snd out) c = [].
Proof.
  intros Hcs Hce Hnot out.
  destruct (kernResetIntBuffer_nth (length starts) starts (-1) ltac:(lia))
    as [Hls Hns].
  destruct (kernResetIntBuffer_nth (length ends) ends (-1) ltac:(lia))
    as [Hle Hne].
  destruct (kernIdentifyCellStartEnd_untouched keys
              (kernResetIntBuffer (length starts) starts (-1))
              (kernResetIntBuffer (length ends) ends (-1)) c Hnot) as [Hs He].
  fold out in Hs, He.
  assert (Hs' : aread 0%Z (fst out) c = (-1)%Z).
  { rewrite Hs by lia. unfold aread. rewrite (proj2 (Z.ltb_ge c 0)) by lia.
    rewrite Hns, (proj2 (Nat.ltb_lt _ _)) by lia. reflexivity. }
  assert (He' : aread 0%Z (snd out) c = (-1)%Z).
  { rewrite He by lia. unfold aread. rewrite (proj2 (Z.ltb_ge c 0)) by lia.
    rewrite Hne, (proj2 (Nat.ltb_lt _ _)) by lia. reflexivity. }
  split; [exact Hs'|]. split; [exact He'|].
  apply cellSlots_start_not_positive. rewrite Hs'. lia.
Qed.

Lemma empty_cell_contributes_nothing_witness :
  let out := kernIdentifyCellStartEnd 3 [5; 2; 2]%Z
               (kernResetIntBuffer 8 (repeat 0%Z 8) (-1))
               (kernResetIntBuffer 8 (repeat 0%Z 8) (-1)) in
  cellSlots (fst out) (snd out) 4 = [].
Proof.
  intros out.
  refine (proj2 (proj2 (empty_cell_contributes_nothing [5; 2; 2]%Z
                          (repeat 0%Z 8) (repeat 0%Z 8) 4 _ _ _)));
    simpl; lia.
Defined.

(** X13 -- for ascending keys inside the buffers, running the builder again
    on the buffers it produced changes nothing: the ranges depend on the keys
    alone, not on what the populated cells held before. *)
Theorem kernIdentifyCellStartEnd_idempotent (keys starts ends : list Z) :
  Sorted Z.le keys ->
  (forall c, In c keys ->
     (0 <= c < Z.of_nat (length starts))%Z /\ (0 <= c < Z.of_nat (length ends))%Z) ->
  let out := kernIdentifyCellStartEnd (length keys) keys starts ends in
  kernIdentifyCellStartEnd (length keys) keys (fst out) (snd out) = out.
Proof.
  intros Hsorted Hrange out.
  assert (Hs : StronglySorted Z.le keys).
  { apply Sorted_StronglySorted; [|exact Hsorted].
    intros x y z Hxy Hyz. exact (Z.le_trans x y z Hxy Hyz). }
  pose proof (kernIdentifyCellStartEnd_length keys starts ends) as Hl1.
  cbv zeta in Hl1. fold out in Hl1. destruct Hl1 as [Hl1s Hl1e].
  pose proof (kernIdentifyCellStartEnd_length keys (fst out) (snd out)) as Hl2.
  cbv zeta in Hl2. destruct Hl2 as [Hl2s Hl2e].
  set (out2 := kernIdentifyCellStartEnd (length keys) keys (fst out) (snd out)) in *.
  assert (Hpop : forall c, In c keys ->
            aread 0%Z (fst out2) c = aread 0%Z (fst out) c
            /\ aread 0%Z (snd out2) c = aread 0%Z (snd out) c).
  { intros c Hin. destruct (Hrange c Hin) as [Hcs Hce].
    destruct (kernIdentifyCellStartEnd_ranges keys Hs starts ends c Hcs Hce)
      as [H1 _].
    destruct (H1 Hin) as [E1 E2]. fold out in E1, E2.
    destruct (kernIdentifyCellStartEnd_ranges keys Hs (fst out) (snd out) c
                ltac:(lia) ltac:(lia)) as [H2 _].
    destruct (H2 Hin) as [F1 F2]. fold out2 in F1, F2.
    rewrite E1, E2, F1, F2. split; reflexivity. }
  assert (Hfst : fst out2 = fst out).
  { apply aread_ext; [lia|]. intros c Hc.
    destruct (in_dec Z.eq_dec c keys) as [Hin|Hnot]; [apply Hpop; exact Hin|].
    apply (kernIdentifyCellStartEnd_untouched keys (fst out) (snd out) c Hnot).
    lia. }
  assert (Hsnd : snd out2 = snd out).
  { apply aread_ext; [lia|]. intros c Hc.
    destruct (in_dec Z.eq_dec c keys) as [Hin|Hnot]; [apply Hpop; exact Hin|].
    apply (kernIdentifyCellStartEnd_untouched keys (fst out) (snd out) c Hnot).
    lia. }
  destruct out2 as [a b], out as [a' b']. simpl in Hfst, Hsnd. congruence.
Qed.

Lemma kernIdentifyCellStartEnd_idempotent_witness :
  let out := kernIdentifyCellStartEnd 3 [2; 2; 5]%Z
               (repeat (-1)%Z 8) (repeat (-1)%Z 8) in
  kernIdentifyCellStartEnd 3 [2; 2; 5]%Z (fst out) (snd out) = out.
Proof.
  apply (kernIdentifyCellStartEnd_idempotent [2; 2; 5]%Z
           (repeat (-1)%Z 8) (repeat (-1)%Z 8)).
  - repeat constructor; lia.
  - intros c [<-|[<-|[<-|[]]]]; simpl; lia.
Defined.

(** ** The 2x2x2 block of candidate cells *)









(** ** What the neighbor loops fetch *)

Lemma fold_left_flat_map {S A B : Type} (f : S -> B -> S) (g : A -> list B)
    (l : list A) (s : S) :
  fold_left f (flat_map g l) s
  = fold_left (fun acc x => fold_left f (g x) acc) l s.
Proof.
  revert s. induction l as [|x l IH]; intros s; simpl; [reflexivity|].
  rewrite fold_left_app. apply IH.
Qed.

Lemma fold_left_map {S A B : Type} (f : S -> B -> S) (h : A -> B)
    (l : list A) (s : S) :
  fold_left f (map h l) s = fold_left (fun acc x => f acc (h x)) l s.
Proof.
  revert s. induction l as [|x l IH]; intros s; simpl; [reflexivity|]. apply IH.
Qed.

(** The two loops of a grid kernel are one pass of the loop body over the
    fetched particles. *)
Lemma scanNeighbors_fetched (fetch : Z -> Z) (pos vel1 : list vec3)
    (starts ends : list Z) (boid_index : Z) (cells : list Z) :
  scanNeighbors fetch pos vel1 starts ends boid_index cells
  = fold_left (neighbor_iter pos vel1 boid_index)
              (fetched fetch starts ends cells) accum0.
Proof.
  unfold scanNeighbors, fetched.
  rewrite fold_left_map, fold_left_flat_map. reflexivity.
Qed.



(** ** After the sort *)

Lemma map_snd_combine {A B : Type} (l : list A) (l' : list B) :
  length l = length l' -> map snd (combine l l') = l'.
Proof.
  revert l'. induction l as [|a l IH]; intros [|b l'] Hlen; simpl in *;
    try discriminate; [reflexivity|].
  rewrite IH by lia. reflexivity.
Qed.

Lemma combine_length_eq {A B : Type} (l : list A) (l' : list B) :
  length l = length l' -> length (combine l l') = length l.
Proof.
  revert l'. induction l as [|a l IH]; intros [|b l'] Hlen; simpl in *;
    try discriminate; [reflexivity|].
  rewrite IH by lia. reflexivity.
Qed.

(** What the sort contract gives for keys and payload of equal length: the
    lengths stay, the payload is permuted, and every sorted pair is a pair of
    the input. *)
Lemma sort_by_key_pairs {A : Type} (keys : list Z) (vals : list A)
    (keys' : list Z) (vals' : list A) (dk : Z) (dv : A) :
  length keys = length vals ->
  sort_by_key keys vals keys' vals' ->
  length keys' = length keys /\ length vals' = length keys
  /\ Permutation vals vals'
  /\ Sorted Z.le keys'
  /\ forall j, (j < length keys)%nat ->
       exists m, (m < length keys)%nat
                 /\ nth j keys' dk = nth m keys dk
                 /\ nth j vals' dv = nth m vals dv.
Proof.
  intros Hlen (Hlen' & Hperm & Hsorted).
  pose proof (Permutation_length Hperm) as Hl.
  rewrite !combine_length_eq in Hl by assumption.
  split; [lia|]. split; [lia|]. split.
  { rewrite <- (map_snd_combine keys vals Hlen).
    rewrite <- (map_snd_combine keys' vals' Hlen').
    apply Permutation_map. exact Hperm. }
  split; [exact Hsorted|].
  intros j Hj.
  assert (Hin : In (nth j keys' dk, nth j vals' dv) (combine keys vals)).
  { apply (Permutation_in _ (Permutation_sym Hperm)).
    rewrite <- combine_nth by exact Hlen'.
    apply nth_In. rewrite combine_length_eq by exact Hlen'. lia. }
  destruct (In_nth _ _ (dk, dv) Hin) as (m & Hm & Hnth).
  rewrite combine_length_eq in Hm by exact Hlen.
  rewrite combine_nth in Hnth by exact Hlen.
  exists m. split; [exact Hm|]. inversion Hnth. split; reflexivity.
Qed.

Lemma kernComputeIndices_length (N : nat) (gridResolution : Z) (gridMin : vec3)
    (inverseCellWidth : R) (pos : list vec3) (indices gridIndices : list Z) :
  (N <= length indices)%nat -> (N <= length gridIndices)%nat ->
  let out := kernComputeIndices N gridResolution gridMin inverseCellWidth pos
                                indices gridIndices in
  length (fst out) = length indices /\ length (snd out) = length gridIndices.
Proof.
  intros Hl1 Hl2 out. subst out. unfold kernComputeIndices.
  rewrite launch_guarded.
  2:{ intros i s' Hge. unfold kernComputeIndices_thread.
      rewrite (proj2 (Nat.ltb_ge i N)) by lia. reflexivity. }
  erewrite fold_left_ext_in.
  2:{ intros acc i Hin. apply in_seq in Hin. unfold kernComputeIndices_thread.
      rewrite (proj2 (Nat.ltb_lt i N)) by lia. cbv zeta. reflexivity. }
  rewrite (fold_left_pair_slots
             (fun i => Z.of_nat i)
             (fun i => gridIndex3Dto1D
                (float2int ((vx (nth i pos vzero) - vx gridMin) * inverseCellWidth))
                (float2int ((vy (nth i pos vzero) - vy gridMin) * inverseCellWidth))
                (float2int ((vz (nth i pos vzero) - vz gridMin) * inverseCellWidth))
                gridResolution)).
  simpl. split.
  - apply (fold_own_slot (fun i _ => Z.of_nat i) 0%Z N indices Hl1).
  - apply (fold_own_slot
             (fun i (_ : Z) => gridIndex3Dto1D
                (float2int ((vx (nth i pos vzero) - vx gridMin) * inverseCellWidth))
                (float2int ((vy (nth i pos vzero) - vy gridMin) * inverseCellWidth))
                (float2int ((vz (nth i pos vzero) - vz gridMin) * inverseCellWidth))
                gridResolution) 0%Z N gridIndices Hl2).
Qed.

Lemma aread_of_nat {A : Type} (d : A) (a : list A) (m : nat) :
  aread d a (Z.of_nat m) = nth m a d.
Proof.
  unfold aread. rewrite (proj2 (Z.ltb_ge _ 0)) by lia.
  rewrite Nat2Z.id. reflexivity.
Qed.

Lemma nth_slots (N i : nat) :
  (i < N)%nat -> nth i (map Z.of_nat (seq 0 N)) 0%Z = Z.of_nat i.
Proof.
  intros Hi. change 0%Z with (Z.of_nat 0%nat).
  rewrite map_nth, seq_nth by exact Hi. reflexivity.
Qed.

(** The labels of both grid steps, for index buffers of exactly N entries:
    the array indices are 0 .. N-1 and entry i of the grid indices is the cell
    of particle i. *)
Lemma labelParticles_arrays (g : Grid) (N : nat) (s : Sim) :
  length (dev_particleArrayIndices s) = N ->
  length (dev_particleGridIndices s) = N ->
  let labels := snd (labelParticles g N s) in
  fst labels = map Z.of_nat (seq 0 N)
  /\ length (snd labels) = N
  /\ forall i, (i < N)%nat ->
       nth i (snd labels) 0%Z
       = cellOf (gridSideCount g) (gridMinimum g) (gridInverseCellWidth g)
                (nth i (dev_pos s) vzero).
Proof.
  intros Hl1 Hl2 labels. subst labels. unfold labelParticles. cbn [snd].
  pose proof (kernComputeIndices_length N (gridSideCount g) (gridMinimum g)
                (gridInverseCellWidth g) (dev_pos s) (dev_particleArrayIndices s)
                (dev_particleGridIndices s) ltac:(lia) ltac:(lia)) as Hlen.
  cbv zeta in Hlen. destruct Hlen as [Hlf Hls].
  split; [|split].
  - apply (nth_ext _ _ 0%Z 0%Z).
    + rewrite Hlf, length_map, length_seq. exact Hl1.
    + intros i Hi. rewrite Hlf, Hl1 in Hi.
      destruct (kernComputeIndices_nth N (gridSideCount g) (gridMinimum g)
                  (gridInverseCellWidth g) (dev_pos s) (dev_particleArrayIndices s)
                  (dev_particleGridIndices s) i Hi ltac:(lia) ltac:(lia))
        as [Hidx _].
      rewrite Hidx, nth_slots by exact Hi. reflexivity.
  - rewrite Hls. exact Hl2.
  - intros i Hi.
    destruct (kernComputeIndices_nth N (gridSideCount g) (gridMinimum g)
                (gridInverseCellWidth g) (dev_pos s) (dev_particleArrayIndices s)
                (dev_particleGridIndices s) i Hi ltac:(lia) ltac:(lia))
      as [_ Hcell].
    exact Hcell.
Qed.


(** X16 -- in both grid steps, whatever order the sort gives to equal keys,
    the sorted cell ids and the sorted array indices stay parallel: both keep
    N entries, the keys ascend, the array indices are a permutation of
    0 .. N-1, and the key at every sort position is the cell of the particle
    whose array index stands at that position. *)
Theorem sorted_arrays_stay_parallel
    (g : Grid) (N : nat) (s : Sim) (gridIndices' arrayIndices' : list Z) :
  length (dev_particleArrayIndices s) = N ->
  length (dev_particleGridIndices s) = N ->
  sort_by_key (snd (snd (labelParticles g N s))) (fst (snd (labelParticles g N s)))
              gridIndices' arrayIndices' ->
  length gridIndices' = N /\ length arrayIndices' = N
  /\ Sorted Z.le gridIndices'
  /\ Permutation (map Z.of_nat (seq 0 N)) arrayIndices'
  /\ forall j, (j < N)%nat ->
       (0 <= nth j arrayIndices' 0 < Z.of_nat N)%Z
       /\ nth j gridIndices' 0%Z
          = cellOf (gridSideCount g) (gridMinimum g) (gridInverseCellWidth g)
                   (aread vzero (dev_pos s) (nth j arrayIndices' 0%Z)).
Proof.
  intros Hl1 Hl2 Hsort.
  destruct (labelParticles_arrays g N s Hl1 Hl2) as (Hidx & Hklen & Hcell).
  destruct (snd (labelParticles g N s)) as [indices keys]. cbn [fst snd] in *.
  subst indices.
  assert (Hlen : length keys = length (map Z.of_nat (seq 0 N)))
    by (rewrite length_map, length_seq; exact Hklen).
  destruct (sort_by_key_pairs keys _ gridIndices' arrayIndices' 0%Z 0%Z Hlen Hsort)
    as (L1 & L2 & Hperm & Hsorted & Hpairs).
  rewrite Hklen in L1, L2, Hpairs.
  split; [exact L1|]. split; [exact L2|]. split; [exact Hsorted|].
  split; [exact Hperm|]. intros j Hj.
  destruct (Hpairs j Hj) as (m & Hm & Hk & Hv).
  rewrite Hk, Hv, nth_slots by exact Hm. split; [lia|].
  rewrite aread_of_nat. apply Hcell. exact Hm.
Qed.

Lemma sorted_arrays_stay_parallel_witness :
  Permutation (map Z.of_nat (seq 0 2)) [1; 0]%Z
  /\ nth 0 [5577; 5577]%Z 0%Z
     = cellOf (gridSideCount initGrid) (gridMinimum initGrid)
              (gridInverseCellWidth initGrid)
              (aread vzero (dev_pos twoCloseBoids) (nth 0 [1; 0]%Z 0%Z)).
Proof.
  assert (Hsort : sort_by_key (snd (snd (labelParticles initGrid 2 twoCloseBoids)))
                    (fst (snd (labelParticles initGrid 2 twoCloseBoids)))
                    [5577; 5577]%Z [1; 0]%Z).
  { rewrite twoCloseBoids_labels. cbn [fst snd].
    apply (sort_by_key_swap_ties 5577 0%Z 1%Z). }
  destruct (sorted_arrays_stay_parallel initGrid 2 twoCloseBoids
              [5577; 5577]%Z [1; 0]%Z eq_refl eq_refl Hsort)
    as (_ & _ & _ & Hperm & Hcell).
  split; [exact Hperm|]. apply (Hcell 0%nat). lia.
Defined.

(** ** The grid steps keep the bounds *)









(** ** The vertex buffers *)

(** Threads [0 .. n-1] that each write the four slots [4i .. 4i+3]. *)
Lemma fold_four_slots (f : nat -> nat -> R) (n : nat) (l : list R) :
  (4 * n <= length l)%nat ->
  let l' := fold_left
              (fun acc i =>
                 <[(4 * i + 3)%nat := f i 3%nat]>
                   (<[(4 * i + 2)%nat := f i 2%nat]>
                      (<[(4 * i + 1)%nat := f i 1%nat]>
                         (<[(4 * i + 0)%nat := f i 0%nat]> acc))))
              (seq 0 n) l in
  length l' = length l
  /\ (forall i k, (i < n)%nat -> (k < 4)%nat -> nth (4 * i + k) l' 0 = f i k)
  /\ (forall j, (4 * n <= j)%nat -> nth j l' 0 = nth j l 0).
Proof.
  induction n as [|n IH]; intros Hn; cbv zeta.
  - simpl. split; [reflexivity|]. split; [intros; lia | reflexivity].
  - rewrite seq_S, fold_left_app. simpl fold_left.
    destruct IH as (Hlen & Hin & Hout); [lia|].
    set (l' := fold_left _ (seq 0 n) l) in *.
    split; [rewrite !length_insert; exact Hlen|]. split.
    + intros i k Hi Hk. destruct (Nat.eq_dec i n) as [->|Hne].
      * destruct k as [|[|[|[|k]]]]; try lia;
          repeat (rewrite nth_insert_ne by lia);
          rewrite nth_insert_eq by (rewrite ?length_insert; lia); reflexivity.
      * repeat (rewrite nth_insert_ne by lia). apply Hin; lia.
    + intros j Hj. repeat (rewrite nth_insert_ne by lia). apply Hout. lia.
Qed.

Lemma kernCopyPositionsToVBO_fold (N : nat) (pos : list vec3) (vbo : list R)
    (s_scale : R) :
  kernCopyPositionsToVBO N pos vbo s_scale
  = fold_left
      (fun acc i =>
         <[(4 * i + 3)%nat := 1]>
           (<[(4 * i + 2)%nat := vz (nth i pos vzero) * (-1 / s_scale)]>
              (<[(4 * i + 1)%nat := vy (nth i pos vzero) * (-1 / s_scale)]>
                 (<[(4 * i + 0)%nat := vx (nth i pos vzero) * (-1 / s_scale)]> acc))))
      (seq 0 N) vbo.
Proof.
  unfold kernCopyPositionsToVBO. rewrite launch_guarded.
  - apply fold_left_ext_in. intros acc i Hi. apply in_seq in Hi.
    unfold kernCopyPositionsToVBO_thread.
    rewrite (proj2 (Nat.ltb_lt i N)) by lia. reflexivity.
  - intros index s' Hge. unfold kernCopyPositionsToVBO_thread.
    rewrite (proj2 (Nat.ltb_ge index N)) by lia. reflexivity.
Qed.

Lemma kernCopyVelocitiesToVBO_fold (N : nat) (vel : list vec3) (vbo : list R)
    (s_scale : R) :
  kernCopyVelocitiesToVBO N vel vbo s_scale
  = fold_left
      (fun acc i =>
         <[(4 * i + 3)%nat := 1]>
           (<[(4 * i + 2)%nat := vz (nth i vel vzero) + 3 / 10]>
              (<[(4 * i + 1)%nat := vy (nth i vel vzero) + 3 / 10]>
                 (<[(4 * i + 0)%nat := vx (nth i vel vzero) + 3 / 10]> acc))))
      (seq 0 N) vbo.
Proof.
  unfold kernCopyVelocitiesToVBO. rewrite launch_guarded.
  - apply fold_left_ext_in. intros acc i Hi. apply in_seq in Hi.
    unfold kernCopyVelocitiesToVBO_thread.
    rewrite (proj2 (Nat.ltb_lt i N)) by lia. reflexivity.
  - intros index s' Hge. unfold kernCopyVelocitiesToVBO_thread.
    rewrite (proj2 (Nat.ltb_ge index N)) by lia. reflexivity.
Qed.

(** X19 -- copyBoidsToVBO writes, for each of the N particles, the record
    (-x/scene_scale, -y/scene_scale, -z/scene_scale, 1) into slots
    4i .. 4i+3 of the position buffer and (vx + 0.3, vy + 0.3, vz + 0.3, 1)
    into the same slots of the velocity buffer; for a particle in the scene
    cube whose speed is within maxSpeed the position components lie in
    [-1, 1] and the velocity components in [-0.7, 1.3]; slots from 4N on
    and the lengths of both buffers are unchanged. *)
Theorem copyBoidsToVBO_records
    (N : nat) (s : Sim) (vbodptr_positions vbodptr_velocities : list R) (i : nat) :
  (i < N)%nat ->
  (4 * N <= length vbodptr_positions)%nat ->
  (4 * N <= length vbodptr_velocities)%nat ->
  inScene (nth i (dev_pos s) vzero) ->
  vlength (nth i (dev_vel1 s) vzero) <= maxSpeed ->
  let p := nth i (dev_pos s) vzero in
  let v := nth i (dev_vel1 s) vzero in
  let out := copyBoidsToVBO N s vbodptr_positions vbodptr_velocities in
  (nth (4 * i + 0) (fst out) 0 = - vx p / scene_scale
   /\ nth (4 * i + 1) (fst out) 0 = - vy p / scene_scale
   /\ nth (4 * i + 2) (fst out) 0 = - vz p / scene_scale
   /\ nth (4 * i + 3) (fst out) 0 = 1)
  /\ (forall k, (k < 3)%nat -> -1 <= nth (4 * i + k) (fst out) 0 <= 1)
  /\ (nth (4 * i + 0) (snd out) 0 = vx v + 3 / 10
      /\ nth (4 * i + 1) (snd out) 0 = vy v + 3 / 10
      /\ nth (4 * i + 2) (snd out) 0 = vz v + 3 / 10
      /\ nth (4 * i + 3) (snd out) 0 = 1)
  /\ (forall k, (k < 3)%nat ->
        -7 / 10 <= nth (4 * i + k) (snd out) 0 <= 13 / 10)
  /\ length (fst out) = length vbodptr_positions
  /\ length (snd out) = length vbodptr_velocities
  /\ (forall j, (4 * N <= j)%nat ->
        nth j (fst out) 0 = nth j vbodptr_positions 0
        /\ nth j (snd out) 0 = nth j vbodptr_velocities 0).
Proof.
  intros Hi Hlp Hlv (Sx & Sy & Sz) Hv p v out.
  subst out. unfold copyBoidsToVBO. cbn [fst snd].
  rewrite kernCopyPositionsToVBO_fold, kernCopyVelocitiesToVBO_fold.
  destruct (fold_four_slots
              (fun i k => match k with
                          | 0%nat => vx (nth i (dev_pos s) vzero) * (-1 / scene_scale)
                          | 1%nat => vy (nth i (dev_pos s) vzero) * (-1 / scene_scale)
                          | 2%nat => vz (nth i (dev_pos s) vzero) * (-1 / scene_scale)
                          | _ => 1
                          end) N vbodptr_positions Hlp) as (PL & PI & PO).
  destruct (fold_four_slots
              (fun i k => match k with
                          | 0%nat => vx (nth i (dev_vel1 s) vzero) + 3 / 10
                          | 1%nat => vy (nth i (dev_vel1 s) vzero) + 3 / 10
                          | 2%nat => vz (nth i (dev_vel1 s) vzero) + 3 / 10
                          | _ => 1
                          end) N vbodptr_velocities Hlv) as (VL & VI & VO).
  cbv beta iota in PL, PI, PO, VL, VI, VO.
  destruct (component_bound v maxSpeed ltac:(unfold maxSpeed; lra) Hv)
    as (Vx & Vy & Vz).
  fold p in Sx, Sy, Sz. unfold scene_scale, maxSpeed in *.
  pose proof (PI i 0%nat Hi ltac:(lia)) as P0.
  pose proof (PI i 1%nat Hi ltac:(lia)) as P1.
  pose proof (PI i 2%nat Hi ltac:(lia)) as P2.
  pose proof (PI i 3%nat Hi ltac:(lia)) as P3.
  pose proof (VI i 0%nat Hi ltac:(lia)) as V0.
  pose proof (VI i 1%nat Hi ltac:(lia)) as V1.
  pose proof (VI i 2%nat Hi ltac:(lia)) as V2.
  pose proof (VI i 3%nat Hi ltac:(lia)) as V3.
  cbv beta iota in P0, P1, P2, P3, V0, V1, V2, V3. fold p in P0, P1, P2. fold v in V0, V1, V2.
  split; [repeat split; first [rewrite P0 | rewrite P1 | rewrite P2 | exact P3]; lra|].
  split.
  { intros k Hk. destruct k as [|[|[|k]]]; try lia;
      first [rewrite P0 | rewrite P1 | rewrite P2]; lra. }
  split; [repeat split; assumption|].
  split.
  { intros k Hk. destruct k as [|[|[|k]]]; try lia;
      first [rewrite V0 | rewrite V1 | rewrite V2]; lra. }
  split; [exact PL|]. split; [exact VL|].
  intros j Hj. split; [apply PO | apply VO]; exact Hj.
Qed.

Lemma copyBoidsToVBO_records_witness :
  nth 0 (fst (copyBoidsToVBO 1 (MkSim [Vec3 50 0 0] [Vec3 1 0 0] [vzero] [] [] [] [])
                [9; 9; 9; 9; 9] [9; 9; 9; 9; 9])) 0
  = - 50 / scene_scale.
Proof.
  refine (proj1 (proj1 (copyBoidsToVBO_records 1
            (MkSim [Vec3 50 0 0] [Vec3 1 0 0] [vzero] [] [] [] [])
            [9; 9; 9; 9; 9] [9; 9; 9; 9; 9] 0 _ _ _ _ _))); simpl; try lia.
  - unfold inScene, scene_scale; simpl; lra.
  - apply vlength_le_iff; unfold maxSpeed, vdot; simpl; lra.
Defined.

(** ** The grid of the program and the rule distances *)




(** ** Two particles on their own *)

(** X21 -- for two particles closer than rule2Distance (so within all three
    rule distances), brute force gives particle 0, before the speed limit,
    its velocity plus (p1 - p0) * (rule1Scale - rule2Scale) plus
    v1 * rule3Scale: the position term is -0.09 (p1 - p0), a net push away
    from the neighbor. *)
Theorem combinedVelocity_pair (p0 p1 v0 v1 : vec3) :
  vlength (vsub p0 p1) < rule2Distance ->
  combinedVelocity 2 0 [p0; p1] [v0; v1]
  = vadd (vadd v0 (vscale (vsub p1 p0) (rule1Scale - rule2Scale)))
         (vscale v1 rule3Scale)
  /\ rule1Scale - rule2Scale = -9 / 100.
Proof.
  intros Hnear. split; [|unfold rule1Scale, rule2Scale; lra].
  unfold combinedVelocity, kernUpdateVelocityRule1, kernUpdateVelocityRule2,
    kernUpdateVelocityRule3, rule1_iter, rule2_iter, rule3_iter. simpl.
  destruct (Rlt_dec _ rule1Distance) as [_|Hn];
    [|exfalso; apply Hn; unfold rule1Distance, rule2Distance in *; lra].
  destruct (Rlt_dec _ rule2Distance) as [_|Hn]; [|contradiction].
  destruct (Rlt_dec _ rule3Distance) as [_|Hn];
    [|exfalso; apply Hn; unfold rule3Distance, rule2Distance in *; lra].
  simpl. change (0 + 1)%Z with 1%Z.
  unfold rule1Scale, rule2Scale, rule3Scale. vec3_lra.
Qed.

Lemma combinedVelocity_pair_witness :
  combinedVelocity 2 0 [Vec3 1 1 1; Vec3 2 1 1] [vzero; vzero]
  = vadd (vadd vzero (vscale (vsub (Vec3 2 1 1) (Vec3 1 1 1))
                             (rule1Scale - rule2Scale)))
         (vscale vzero rule3Scale).
Proof.
  refine (proj1 (combinedVelocity_pair (Vec3 1 1 1) (Vec3 2 1 1) vzero vzero _)).
  apply near_on_x; unfold rule2Distance; lra.
Defined.

(** ** The loop body of the grid kernels against the brute-force loops *)

Lemma neighbor_loop_is_rule_loops (pos vel : list vec3) (iSelf : nat)
    (L : list nat) (r1 : vec3) (c : Z) (r2 r3 : vec3) :
  fold_left (neighbor_iter pos vel (Z.of_nat iSelf)) (map Z.of_nat L)
            (Accum r1 c r2 r3)
  = Accum (fst (fold_left (rule1_iter iSelf pos) L (r1, c)))
          (snd (fold_left (rule1_iter iSelf pos) L (r1, c)))
          (fold_left (rule2_iter iSelf pos) L r2)
          (fold_left (rule3_iter iSelf pos vel) L r3).
Proof.
  revert r1 c r2 r3. induction L as [|n L IH]; intros r1 c r2 r3; simpl;
    [reflexivity|].
  unfold neighbor_iter at 2, rule1_iter at 2 4, rule2_iter at 2, rule3_iter at 2.
  rewrite !aread_of_nat.
  destruct (Nat.eqb_spec n iSelf) as [->|Hne].
  - rewrite Z.eqb_refl. apply IH.
  - rewrite (proj2 (Z.eqb_neq (Z.of_nat n) (Z.of_nat iSelf))) by lia.
    cbv zeta.
    destruct (Rlt_dec _ rule1Distance), (Rlt_dec _ rule2Distance),
      (Rlt_dec _ rule3Distance); simpl; apply IH.
Qed.

(** X22 -- the loop body and the closing statements of the grid kernels,
    run over the particles 0 .. N-1 in that order, give exactly the velocity
    that computeVelocityChange gives: the grid kernels and brute force differ
    only in which particles they fetch and in what order. *)
Theorem grid_loop_on_all_particles_is_brute_force
    (N iSelf : nat) (pos vel : list vec3) :
  finishVelocity
    (fold_left (neighbor_iter pos vel (Z.of_nat iSelf))
               (map Z.of_nat (seq 0 N)) accum0)
    (nth iSelf pos vzero) (nth iSelf vel vzero)
  = computeVelocityChange N iSelf pos vel.
Proof.
  unfold accum0. rewrite neighbor_loop_is_rule_loops.
  unfold finishVelocity, computeVelocityChange, combinedVelocity,
    kernUpdateVelocityRule1, kernUpdateVelocityRule2, kernUpdateVelocityRule3.
  cbn [rule1 rule1_count rule2 rule3]. reflexivity.
Qed.

(** ** Which sort positions the loops visit *)

(** X23 -- for ascending keys with ranges built on buffers reset to -1,
    every sort position j that the neighbor loops visit for a list of
    candidate cells is a position of the key array whose key is one of those
    cells, and never a position of the cell that holds sort position 0. *)
Theorem visited_positions_are_candidates
    (keys cells : list Z) (M : nat) (j : Z) :
  Sorted Z.le keys ->
  (forall c, In c keys -> (0 <= c < Z.of_nat M)%Z) ->
  let out := kernIdentifyCellStartEnd (length keys) keys
               (repeat (-1)%Z M) (repeat (-1)%Z M) in
  In j (flat_map (cellSlots (fst out) (snd out)) cells) ->
  (0 <= j < Z.of_nat (length keys))%Z
  /\ In (nth (Z.to_nat j) keys 0%Z) cells
  /\ nth (Z.to_nat j) keys 0%Z <> nth 0 keys 0%Z.
Proof.
  intros Hsorted Hrange out Hin.
  assert (Hs : StronglySorted Z.le keys).
  { apply Sorted_StronglySorted; [|exact Hsorted].
    intros x y z Hxy Hyz. exact (Z.le_trans x y z Hxy Hyz). }
  apply in_flat_map in Hin as (c & Hc & Hj).
  pose proof (kernIdentifyCellStartEnd_length keys (repeat (-1)%Z M)
                (repeat (-1)%Z M)) as Hlen.
  cbv zeta in Hlen. fold out in Hlen. rewrite repeat_length in Hlen.
  destruct Hlen as [Hls Hle].
  unfold cellSlots in Hj.
  destruct (Z.ltb_spec c 0) as [|Hc0]; [destruct Hj|].
  cbv zeta in Hj.
  destruct (Z.gtb_spec (aread 0%Z (snd out) c) (aread 0%Z (fst out) c))
    as [Hse|]; [|destruct Hj].
  destruct (Z.gtb_spec (aread 0%Z (fst out) c) 0) as [Hs0|]; [|destruct Hj].
  simpl in Hj. apply list_elem_of_In, elem_of_seqZ in Hj.
  assert (HcM : (c < Z.of_nat M)%Z).
  { destruct (Z.ltb_spec c (Z.of_nat M)) as [|Hout]; [assumption|].
    exfalso. unfold aread in Hs0. rewrite (proj2 (Z.ltb_ge c 0)) in Hs0 by lia.
    rewrite nth_overflow in Hs0 by lia. lia. }
  assert (Hck : In c keys).
  { destruct (in_dec Z.eq_dec c keys) as [|Hnot]; [assumption|].
    exfalso.
    destruct (kernIdentifyCellStartEnd_untouched keys (repeat (-1)%Z M)
                (repeat (-1)%Z M) c Hnot) as [Hun _].
    fold out in Hun. rewrite Hun in Hs0 by (rewrite repeat_length; lia).
    unfold aread in Hs0. rewrite (proj2 (Z.ltb_ge c 0)) in Hs0 by lia.
    rewrite nth_repeat_lt in Hs0 by lia. lia. }
  destruct (kernIdentifyCellStartEnd_ranges keys Hs (repeat (-1)%Z M)
              (repeat (-1)%Z M) c) as [Hpop _];
    try (rewrite repeat_length; lia).
  destruct (Hpop Hck) as [Hstart Hend]. fold out in Hstart, Hend.
  rewrite Hstart, Hend in *.
  pose proof (countUpTo_le_length c keys) as Hcu.
  assert (HjN : (Z.to_nat j < length keys)%nat) by lia.
  assert (Hkey : nth (Z.to_nat j) keys 0%Z = c).
  { apply (sorted_cell_interval c keys Hs _ HjN). lia. }
  split; [lia|]. rewrite Hkey. split; [exact Hc|].
  intros Heq.
  assert (H0 : (0 < length keys)%nat) by lia.
  pose proof (proj1 (sorted_cell_interval c keys Hs 0%nat H0) (eq_sym Heq)). lia.
Qed.

Lemma visited_positions_are_candidates_witness :
  let out := kernIdentifyCellStartEnd 3 [2; 5; 5]%Z
               (repeat (-1)%Z 8) (repeat (-1)%Z 8) in
  In 2%Z (flat_map (cellSlots (fst out) (snd out)) [5; 7]%Z)
  /\ In (nth (Z.to_nat 2) [2; 5; 5]%Z 0%Z) [5; 7]%Z.
Proof.
  intros out.
  assert (Hin : In 2%Z (flat_map (cellSlots (fst out) (snd out)) [5; 7]%Z)).
  { vm_compute. tauto. }
  split; [exact Hin|].
  refine (proj1 (proj2 (visited_positions_are_candidates [2; 5; 5]%Z [5; 7]%Z 8 2%Z
                          _ _ Hin))).
  - repeat constructor; lia.
  - intros c [<-|[<-|[<-|[]]]]; lia.
Defined.
